(** * Verification of go-utils-compare (main.go)

    Shallow embedding of the cron-job comparison tool: the command
    normaliser [normalizeCommand] (Go's [strings.Join(strings.Fields(s), " ")],
    with the UTF-8 decoding that [strings.Fields] performs), the name index
    [createCronJobMap], and the JSON branch of [compareCommands], which
    collects the [JobDifference] records. Go strings are byte sequences;
    they are modelled as Rocq [string]s, whose characters are 8-bit bytes.
    Go's [range] over a map visits every entry once in an unspecified order:
    the order is an explicit argument, constrained to be a permutation of
    the map's entries. *)

From Stdlib Require Import ZArith Ascii String.
From stdpp Require Import base list gmap strings.

Local Open Scope Z_scope.

(* ================================================================= *)
(** ** Bytes and UTF-8 decoding (Go's unicode/utf8) *)

(** The value of a byte of a Go string. *)
Definition byte_val (c : ascii) : Z := Z.of_N (N_of_ascii c).

(** [s[i]] for an index known to be in range (0 otherwise). *)
Definition byte_at (i : nat) (s : string) : Z :=
  match String.get i s with
  | Some c => byte_val c
  | None => 0
  end.

Definition RuneError : Z := 65533.

(** The [first] table of unicode/utf8 together with [acceptRanges]:
    ASCII bytes, invalid leading bytes, and leading bytes of a sequence
    of [sz] bytes whose second byte must lie in [lo, hi]. *)
Inductive first_class :=
| FAscii
| FInvalid
| FMulti (sz : nat) (lo hi : Z).

Definition first (s0 : Z) : first_class :=
  if s0 <? 128 then FAscii
  else if s0 <? 194 then FInvalid
  else if s0 <=? 223 then FMulti 2 128 191
  else if s0 =? 224 then FMulti 3 160 191
  else if s0 <=? 236 then FMulti 3 128 191
  else if s0 =? 237 then FMulti 3 128 159
  else if s0 <=? 239 then FMulti 3 128 191
  else if s0 =? 240 then FMulti 4 144 191
  else if s0 <=? 243 then FMulti 4 128 191
  else if s0 =? 244 then FMulti 4 128 143
  else FInvalid.

(** [utf8.DecodeRuneInString]: the first rune of [s] and its width.
    The [range] loop over a string decodes with the same rules. *)
Definition DecodeRuneInString (s : string) : Z * nat :=
  match s with
  | EmptyString => (RuneError, 0%nat)
  | String c0 _ =>
      let s0 := byte_val c0 in
      match first s0 with
      | FAscii => (s0, 1%nat)
      | FInvalid => (RuneError, 1%nat)
      | FMulti sz lo hi =>
          if (String.length s <? sz)%nat then (RuneError, 1%nat) else
          let s1 := byte_at 1 s in
          if (s1 <? lo) || (hi <? s1) then (RuneError, 1%nat) else
          if (sz <=? 2)%nat then
            (Z.lor (Z.shiftl (Z.land s0 31) 6) (Z.land s1 63), 2%nat) else
          let s2 := byte_at 2 s in
          if (s2 <? 128) || (191 <? s2) then (RuneError, 1%nat) else
          if (sz <=? 3)%nat then
            (Z.lor (Z.lor (Z.shiftl (Z.land s0 15) 12) (Z.shiftl (Z.land s1 63) 6))
                   (Z.land s2 63), 3%nat) else
          let s3 := byte_at 3 s in
          if (s3 <? 128) || (191 <? s3) then (RuneError, 1%nat) else
          (Z.lor (Z.lor (Z.lor (Z.shiftl (Z.land s0 7) 18) (Z.shiftl (Z.land s1 63) 12))
                        (Z.shiftl (Z.land s2 63) 6)) (Z.land s3 63), 4%nat)
      end
  end.

(** [s[:n]] and [s[n:]] (clamped). *)
Fixpoint str_take (n : nat) (s : string) : string :=
  match n, s with
  | O, _ => EmptyString
  | S n', String c s' => String c (str_take n' s')
  | S _, EmptyString => EmptyString
  end.

Fixpoint str_drop (n : nat) (s : string) : string :=
  match n, s with
  | O, _ => s
  | S n', String _ s' => str_drop n' s'
  | S _, EmptyString => EmptyString
  end.

(** The runes visited by [for i, r := range s], each with the bytes it
    was decoded from. *)
Fixpoint runes_fuel (fuel : nat) (s : string) : list (Z * string) :=
  match fuel with
  | O => []
  | S f =>
      match s with
      | EmptyString => []
      | String _ _ =>
          let '(r, w) := DecodeRuneInString s in
          (r, str_take w s) :: runes_fuel f (str_drop w s)
      end
  end.

Definition runes (s : string) : list (Z * string) := runes_fuel (String.length s) s.

(* ================================================================= *)
(** ** unicode.IsSpace and strings.Fields *)

Definition IsSpace (r : Z) : bool :=
  if r <=? 255 then
    (r =? 9) || (r =? 10) || (r =? 11) || (r =? 12) || (r =? 13) || (r =? 32)
    || (r =? 133) || (r =? 160)
  else
    (r =? 5760) || ((8192 <=? r) && (r <=? 8202)) || (r =? 8232) || (r =? 8233)
    || (r =? 8239) || (r =? 8287) || (r =? 12288).

(** [strings.FieldsFunc(s, unicode.IsSpace)]: [cur] is the field being
    scanned ([start >= 0] in Go), a space rune closes it. *)
Fixpoint fields_func (rs : list (Z * string)) (cur : option string) : list string :=
  match rs with
  | [] => match cur with Some t => [t] | None => [] end
  | (r, c) :: rs' =>
      if IsSpace r then
        match cur with
        | Some t => t :: fields_func rs' None
        | None => fields_func rs' None
        end
      else fields_func rs' (Some (match cur with Some t => String.append t c | None => c end))
  end.

Definition FieldsFunc_IsSpace (s : string) : list string := fields_func (runes s) None.

(** The [asciiSpace] table of package strings. *)
Definition asciiSpace (b : Z) : bool :=
  (b =? 9) || (b =? 10) || (b =? 11) || (b =? 12) || (b =? 13) || (b =? 32).

(** The ASCII fast path of [strings.Fields], byte by byte. *)
Fixpoint fields_ascii (s : string) (cur : option string) : list string :=
  match s with
  | EmptyString => match cur with Some t => [t] | None => [] end
  | String c s' =>
      if asciiSpace (byte_val c) then
        match cur with
        | Some t => t :: fields_ascii s' None
        | None => fields_ascii s' None
        end
      else fields_ascii s' (Some (match cur with
                                 | Some t => String.append t (String c EmptyString)
                                 | None => String c EmptyString end))
  end.

(** [setBits >= utf8.RuneSelf]: some byte has its high bit set. *)
Fixpoint has_non_ascii (s : string) : bool :=
  match s with
  | EmptyString => false
  | String c s' => (128 <=? byte_val c) || has_non_ascii s'
  end.

Definition Fields (s : string) : list string :=
  if has_non_ascii s then FieldsFunc_IsSpace s else fields_ascii s None.

(** [func normalizeCommand(command string) string] *)
Definition normalizeCommand (command : string) : string :=
  String.concat " " (Fields command).

Definition str_of_bytes (l : list Z) : string :=
  fold_right (fun b s => String (ascii_of_N (Z.to_N b)) s) EmptyString l.

Example norm1 : normalizeCommand (str_of_bytes [97; 32; 32; 32; 98; 9; 99]) = "a b c".
Proof. vm_compute. reflexivity. Qed.
Example norm2 : normalizeCommand (str_of_bytes [226; 128; 128; 120; 194; 160; 121; 32; 200])
                = str_of_bytes [120; 32; 121; 32; 200].
Proof. vm_compute. reflexivity. Qed.

(** The whitespace structure that [strings.Fields] is documented to
    follow: the runes of the input are leading white space [W], a field
    [T] of non-space runes that ends at the end of the input or at a
    space rune, and the rest of the input. The field is the bytes of [T]. *)
Definition space_rune (x : Z * string) : Prop := IsSpace x.1 = true.
Definition field_rune (x : Z * string) : Prop := IsSpace x.1 = false.

Fixpoint chunks_bytes (l : list (Z * string)) : string :=
  match l with
  | [] => EmptyString
  | (_, c) :: l' => String.append c (chunks_bytes l')
  end.

Inductive split_on_space : list (Z * string) -> list string -> Prop :=
| split_end (W : list (Z * string)) :
    Forall space_rune W -> split_on_space W []
| split_field (W T R : list (Z * string)) (ts : list string) :
    Forall space_rune W -> T <> [] -> Forall field_rune T ->
    (R = [] \/ exists x R', R = x :: R' /\ space_rune x) ->
    split_on_space R ts ->
    split_on_space (W ++ T ++ R) (chunks_bytes T :: ts).

(* ================================================================= *)
(** ** Data model (main.go) *)

Record CronJob := mkCronJob {
  Command : string;
  Name : string;
  Schedule : string
}.

Record JobDifference := mkJobDifference {
  CronName : string;
  Type_ : string;  (* Go field [Type]; [Type] is a Rocq keyword *)
  Production : string;
  Development : string
}.

Global Instance CronJob_eq_dec : EqDecision CronJob.
Proof. solve_decision. Defined.

Definition TypeCommandDifference : string := "Command Difference".
Definition TypeScheduleDifference : string := "Schedule Difference".
Definition TypeOnlyProduction : string := "Exists in production but not in development".
Definition TypeOnlyDevelopment : string := "Exists in development but not in production".

(** [func createCronJobMap(cronJobs []CronJob) map[string]CronJob] *)
Definition createCronJobMap (cronJobs : list CronJob) : gmap string CronJob :=
  foldl (fun jobMap job => <[Name job := job]> jobMap) ∅ cronJobs.

(** A possible visiting order of [for k, v := range m]. *)
Definition range_order (m : gmap string CronJob) (it : list (string * CronJob)) : Prop :=
  it ≡ₚ map_to_list m.

(** Body of the first loop of the JSON branch of [compareCommands]
    ([for name, prodJob := range prodCronJobs]): the records it appends. *)
Definition prod_entry (devCronJobs : gmap string CronJob)
    (name : string) (prodJob : CronJob) : list JobDifference :=
  match devCronJobs !! name with
  | Some devJob =>
      (if negb (String.eqb (normalizeCommand (Command prodJob))
                            (normalizeCommand (Command devJob)))
       then [mkJobDifference name TypeCommandDifference (Command prodJob) (Command devJob)]
       else [])
      ++ (if negb (String.eqb (Schedule prodJob) (Schedule devJob))
          then [mkJobDifference name TypeScheduleDifference (Schedule prodJob) (Schedule devJob)]
          else [])
  | None => [mkJobDifference name TypeOnlyProduction "" ""]
  end.

Fixpoint prod_loop (devCronJobs : gmap string CronJob)
    (it : list (string * CronJob)) : list JobDifference :=
  match it with
  | [] => []
  | (name, prodJob) :: it' => prod_entry devCronJobs name prodJob ++ prod_loop devCronJobs it'
  end.

(** Body of the second loop: [for name := range devCronJobs]. *)
Definition dev_entry (prodCronJobs : gmap string CronJob) (name : string) : list JobDifference :=
  match prodCronJobs !! name with
  | Some _ => []
  | None => [mkJobDifference name TypeOnlyDevelopment "" ""]
  end.

Fixpoint dev_loop (prodCronJobs : gmap string CronJob)
    (it : list (string * CronJob)) : list JobDifference :=
  match it with
  | [] => []
  | (name, _) :: it' => dev_entry prodCronJobs name ++ dev_loop prodCronJobs it'
  end.

(** The [differences] slice built by the JSON branch of
    [compareCommands], for given visiting orders of the two maps. *)
Definition compareCommands (prodJobs devJobs : list CronJob)
    (itProd itDev : list (string * CronJob)) : list JobDifference :=
  let prodCronJobs := createCronJobMap prodJobs in
  let devCronJobs := createCronJobMap devJobs in
  prod_loop devCronJobs itProd ++ dev_loop prodCronJobs itDev.

(** [out] is the output of one run of [compareCommands] on the two
    collections, for some visiting orders chosen by the Go runtime. *)
Definition compare_run (prodJobs devJobs : list CronJob) (out : list JobDifference) : Prop :=
  exists itProd itDev,
    range_order (createCronJobMap prodJobs) itProd /\
    range_order (createCronJobMap devJobs) itDev /\
    out = compareCommands prodJobs devJobs itProd itDev.

(** One particular run: both maps visited in [map_to_list] order. *)
Definition compare_sorted (prodJobs devJobs : list CronJob) : list JobDifference :=
  compareCommands prodJobs devJobs
    (map_to_list (createCronJobMap prodJobs)) (map_to_list (createCronJobMap devJobs)).

(** The fields written by [json.MarshalIndent] for one record; the
    [omitempty] fields are left out when they hold the empty string. *)
Definition json_fields (d : JobDifference) : list (string * string) :=
  [("cron_name", CronName d); ("type", Type_ d)]
  ++ (if String.eqb (Production d) "" then [] else [("production", Production d)])
  ++ (if String.eqb (Development d) "" then [] else [("development", Development d)]).

Definition is_missing (d : JobDifference) : bool :=
  String.eqb (Type_ d) TypeOnlyProduction || String.eqb (Type_ d) TypeOnlyDevelopment.

Definition job (n c s : string) : CronJob := mkCronJob c n s.

(** The collections of the spec's rename example. *)
Definition rename_A : list CronJob := [job "job1" "/bin/run.sh" "* * * * *"].
Definition rename_B : list CronJob := [job "job1_renamed" "/bin/run.sh" "* * * * *"].

(** Two jobs that exist only in the production collection. *)
Definition two_jobs : list CronJob := [job "a" "/bin/a.sh" "* * * * *"; job "b" "/bin/b.sh" "* * * * *"].

(** A crontab with several jobs, one name defined twice (the later job
    replaces the earlier one in the index). *)
Definition crontab_jobs : list CronJob :=
  [job "backup" "/usr/bin/backup.sh  --full" "0 3 * * *";
   job "cleanup" "/bin/rm -rf /tmp/cache" "*/15 * * * *";
   job "backup" "/usr/bin/backup.sh --incr" "0 4 * * *";
   job "report" "/opt/report/run" "30 6 * * 1"].

(** Whether the JSON object of a record has the given key. *)
Definition json_has (key : string) (d : JobDifference) : bool :=
  existsb (fun kv => String.eqb kv.1 key) (json_fields d).

Global Instance JobDifference_eq_dec : EqDecision JobDifference.
Proof. solve_decision. Defined.

(** The record of the other direction: [compareCommands B A] reports a
    difference with the two sides exchanged. *)
Definition mirror_type (t : string) : string :=
  if String.eqb t TypeOnlyProduction then TypeOnlyDevelopment
  else if String.eqb t TypeOnlyDevelopment then TypeOnlyProduction
  else t.

Definition mirror (d : JobDifference) : JobDifference :=
  mkJobDifference (CronName d) (mirror_type (Type_ d)) (Development d) (Production d).

(** The bytes of a string, as numbers. *)
Fixpoint bytes_of (s : string) : list Z :=
  match s with
  | EmptyString => []
  | String c s' => byte_val c :: bytes_of s'
  end.

(* ================================================================= *)
(** ** The text branch of compareCommands *)

(** The one-byte string of a byte value. *)
Definition str1 (n : nat) : string := String (ascii_of_nat n) EmptyString.

Definition nl : string := str1 10.

(** ANSI color codes *)
Definition Reset : string := String.append (str1 27) "[0m".
Definition Yellow : string := String.append (str1 27) "[33m".
Definition Red : string := String.append (str1 27) "[31m".
Definition LightBlue : string := String.append (str1 27) "[94m".

(** [fmt.Sprintf("%sCommand difference:\n  Production: %s\n  Development: %s%s\n",
    Red, prod, dev, Reset)] *)
Definition text_command_diff (prod dev : string) : string :=
  (Red ++ "Command difference:" ++ nl ++ "  Production: " ++ prod ++ nl
   ++ "  Development: " ++ dev ++ Reset ++ nl)%string.

(** [fmt.Sprintf("%sSchedule difference:\n  Production: %s\n  Development: %s%s\n",
    Yellow, prod, dev, Reset)] *)
Definition text_schedule_diff (prod dev : string) : string :=
  (Yellow ++ "Schedule difference:" ++ nl ++ "  Production: " ++ prod ++ nl
   ++ "  Development: " ++ dev ++ Reset ++ nl)%string.

Definition text_only_production : string :=
  (LightBlue ++ "Exists in production but not in development" ++ Reset)%string.

Definition text_only_development : string :=
  (LightBlue ++ "Exists in development but not in production" ++ Reset)%string.

(** The [differences] string built by the body of the first loop of the
    text branch ([var differences string], then [+=] or [=]). *)
Definition text_prod_entry (devCronJobs : gmap string CronJob)
    (name : string) (prodJob : CronJob) : string :=
  match devCronJobs !! name with
  | Some devJob =>
      String.append
        (String.append EmptyString
           (if negb (String.eqb (normalizeCommand (Command prodJob))
                                (normalizeCommand (Command devJob)))
            then text_command_diff (Command prodJob) (Command devJob)
            else EmptyString))
        (if negb (String.eqb (Schedule prodJob) (Schedule devJob))
         then text_schedule_diff (Schedule prodJob) (Schedule devJob)
         else EmptyString)
  | None => text_only_production
  end.

(** The rows [(name, differences)] the first loop writes to the table
    writer: a row only [if differences != ""]. *)
Fixpoint text_prod_loop (devCronJobs : gmap string CronJob)
    (it : list (string * CronJob)) : list (string * string) :=
  match it with
  | [] => []
  | (name, prodJob) :: it' =>
      let differences := text_prod_entry devCronJobs name prodJob in
      (if String.eqb differences "" then [] else [(name, differences)])
      ++ text_prod_loop devCronJobs it'
  end.

(** The rows of the second loop ([for name := range devCronJobs]). *)
Fixpoint text_dev_loop (prodCronJobs : gmap string CronJob)
    (it : list (string * CronJob)) : list (string * string) :=
  match it with
  | [] => []
  | (name, _) :: it' =>
      match prodCronJobs !! name with
      | Some _ => []
      | None => [(name, text_only_development)]
      end ++ text_dev_loop prodCronJobs it'
  end.

(** The rows of the text branch, for given visiting orders. *)
Definition text_rows (prodJobs devJobs : list CronJob)
    (itProd itDev : list (string * CronJob)) : list (string * string) :=
  let prodCronJobs := createCronJobMap prodJobs in
  let devCronJobs := createCronJobMap devJobs in
  text_prod_loop devCronJobs itProd ++ text_dev_loop prodCronJobs itDev.

(** [rows] are the rows of one run of the text branch. *)
Definition text_run (prodJobs devJobs : list CronJob) (rows : list (string * string)) : Prop :=
  exists itProd itDev,
    range_order (createCronJobMap prodJobs) itProd /\
    range_order (createCronJobMap devJobs) itDev /\
    rows = text_rows prodJobs devJobs itProd itDev.

(** [utf8.RuneCountInString]: it steps through the string with the
    decoder's widths. *)
Definition RuneCountInString (s : string) : nat := length (runes s).

Fixpoint spaces (n : nat) : string :=
  match n with
  | O => EmptyString
  | S n' => String " " (spaces n')
  end.

(** The verb [%-<wid>s] of package fmt: [s], then spaces up to [wid] runes. *)
Definition pad_right (wid : nat) (s : string) : string :=
  String.append s (spaces (wid - RuneCountInString s)).

(** [fmt.Fprintf(w, "%-40s\t%-70s\n", a, b)]: the bytes written to the
    table writer for one row (the writer aligns the columns on [Flush]). *)
Definition table_row (a b : string) : string :=
  (pad_right 40 a ++ str1 9 ++ pad_right 70 b ++ nl)%string.

(** What the text branch writes to the table writer. *)
Definition text_table_input (rows : list (string * string)) : string :=
  String.concat ""
    (table_row "Cron Name" "Difference" :: table_row "---------" "----------"
     :: map (fun row => table_row row.1 row.2) rows).

(* ================================================================= *)
(** ** The JSON report: [json.MarshalIndent(differences, "", "  ")] *)

Definition hex : string := "0123456789abcdef".

(** [hex[i]] *)
Definition hex_at (i : Z) : string :=
  match String.get (Z.to_nat i) hex with
  | Some c => String c EmptyString
  | None => EmptyString
  end.

(** [htmlSafeSet] of encoding/json: the printable ASCII bytes other than
    the double quote, the backslash, [<], [>] and [&]. *)
Definition htmlSafeSet (b : Z) : bool :=
  (32 <=? b) && (b <? 128)
  && negb ((b =? 34) || (b =? 92) || (b =? 60) || (b =? 62) || (b =? 38)).

(** The escape [appendString] writes for an ASCII byte outside
    [htmlSafeSet] (the \b and \f forms are those of Go 1.22 and later). *)
Definition escape_ascii (b : Z) : string :=
  if (b =? 92) || (b =? 34) then String.append "\" (str1 (Z.to_nat b))
  else if b =? 8 then "\b"
  else if b =? 12 then "\f"
  else if b =? 10 then "\n"
  else if b =? 13 then "\r"
  else if b =? 9 then "\t"
  else ("\u00" ++ hex_at (Z.shiftr b 4) ++ hex_at (Z.land b 15))%string.

(** The loop of [appendString] (with [escapeHTML] set, as [Marshal]
    does), between the quotes: ASCII bytes one by one, other runes decoded
    with [utf8.DecodeRuneInString] (which reads at most [utf8.UTFMax]
    bytes); an invalid byte becomes the escape \ufffd, U+2028 and U+2029 are escaped,
    other runes are copied. *)
Fixpoint json_escape_fuel (fuel : nat) (s : string) : string :=
  match fuel with
  | O => EmptyString
  | S f =>
      match s with
      | EmptyString => EmptyString
      | String c rest =>
          let b := byte_val c in
          if b <? 128 then
            String.append
              (if htmlSafeSet b then String c EmptyString else escape_ascii b)
              (json_escape_fuel f rest)
          else
            let '(r, size) := DecodeRuneInString s in
            String.append
              (if (r =? RuneError) && (size =? 1)%nat then "\ufffd"
               else if (r =? 8232) || (r =? 8233) then String.append "\u202" (hex_at (Z.land r 15))
               else str_take size s)
              (json_escape_fuel f (str_drop size s))
      end
  end.

Definition json_escape (s : string) : string := json_escape_fuel (String.length s) s.

(** A JSON string literal. *)
Definition json_string (s : string) : string :=
  (str1 34 ++ json_escape s ++ str1 34)%string.

(** One member of an object at depth 2, and one record at depth 1. *)
Definition json_member (kv : string * string) : string :=
  ("    " ++ json_string kv.1 ++ ": " ++ json_string kv.2)%string.

Definition json_object (d : JobDifference) : string :=
  ("{" ++ nl ++ String.concat ("," ++ nl) (map json_member (json_fields d))
   ++ nl ++ "  }")%string.

(** The indented encoding of the [differences] slice. It is nil exactly
    when nothing was appended, and a nil slice is encoded as null. *)
Definition MarshalIndent_differences (differences : list JobDifference) : string :=
  match differences with
  | [] => "null"
  | _ :: _ =>
      ("[" ++ nl
       ++ String.concat ("," ++ nl) (map (fun d => "  " ++ json_object d)%string differences)
       ++ nl ++ "]")%string
  end.

(** [fmt.Println(string(jsonData))] *)
Definition json_report (differences : list JobDifference) : string :=
  (MarshalIndent_differences differences ++ nl)%string.

(** The bytes a JSON string literal may hold: no control byte and none of
    [&], [<] and [>]; among them the ASCII ones. The runes it may hold: no
    invalid byte (decoded as a width-1 [RuneError]), no U+2028 or U+2029. *)
Definition json_safe_byte (b : Z) : Prop := 32 <= b /\ b <> 38 /\ b <> 60 /\ b <> 62.

Definition json_ascii_ok (b : Z) : Prop := b < 128 /\ json_safe_byte b.

Definition json_safe_rune (x : Z * string) : Prop :=
  ~ (x.1 = RuneError /\ String.length x.2 = 1%nat) /\ x.1 <> 8232 /\ x.1 <> 8233.

Example cmp_ex1 :
  compare_sorted [job "j" "x" "1 * * * *"] [job "j" "y" "1 * * * *"]
  = [mkJobDifference "j" TypeCommandDifference "x" "y"].
Proof. vm_compute. reflexivity. Qed.

Example cmp_ex2 :
  compare_sorted [job "j" "a  b" "* * * * *"] [job "j" "a b" "* * * * *"] = [].
Proof. vm_compute. reflexivity. Qed.

(* ================================================================= *)
(** ** Strings as byte sequences *)

Local Arguments byte_val : simpl never.
Local Arguments String.append : simpl nomatch.

Lemma byte_val_range (c : ascii) : 0 <= byte_val c < 256.
Proof.
  unfold byte_val. pose proof (N_ascii_bounded c). lia.
Qed.

Lemma str_app_assoc (a b c : string) :
  String.append a (String.append b c) = String.append (String.append a b) c.
Proof. induction a as [|x a IH]; simpl; congruence. Qed.

Lemma str_app_nil_r (a : string) : String.append a EmptyString = a.
Proof. induction a as [|x a IH]; simpl; congruence. Qed.

Lemma str_length_app (a b : string) :
  String.length (String.append a b) = (String.length a + String.length b)%nat.
Proof. induction a as [|x a IH]; simpl; congruence. Qed.

Lemma str_take_drop (n : nat) (s : string) :
  String.append (str_take n s) (str_drop n s) = s.
Proof.
  revert s; induction n as [|n IH]; intros [|c s]; simpl; try done. by rewrite IH.
Qed.

Lemma str_length_drop (n : nat) (s : string) :
  String.length (str_drop n s) = (String.length s - n)%nat.
Proof.
  revert s; induction n as [|n IH]; intros [|c s]; simpl; try done; lia.
Qed.

Lemma str_take_app (n : nat) (u r : string) :
  (n <= String.length u)%nat -> str_take n (String.append u r) = str_take n u.
Proof.
  revert u; induction n as [|n IH]; intros [|c u] Hn; simpl in *; try done; try lia.
  rewrite IH; [done | lia].
Qed.

Lemma str_drop_app (n : nat) (u r : string) :
  (n <= String.length u)%nat -> str_drop n (String.append u r) = String.append (str_drop n u) r.
Proof.
  revert u; induction n as [|n IH]; intros [|c u] Hn; simpl in *; try done; try lia.
  apply IH; lia.
Qed.

(** A string that cannot continue a UTF-8 sequence begun before it:
    empty, or starting with a byte that is not a continuation byte. *)
Definition boundary (r : string) : Prop :=
  match r with
  | EmptyString => True
  | String d _ => byte_val d < 128 \/ 191 < byte_val d
  end.

(* ================================================================= *)
(** ** Properties of the UTF-8 decoder *)

Lemma first_multi (s0 : Z) (sz : nat) (lo hi : Z) :
  first s0 = FMulti sz lo hi ->
  (sz = 2%nat \/ sz = 3%nat \/ sz = 4%nat) /\ 128 <= lo /\ hi <= 191.
Proof.
  unfold first. intros H.
  repeat match type of H with
  | context [if ?b then _ else _] => destruct b
  end; inversion H; subst; lia.
Qed.

Lemma first_invalid_cont (s0 : Z) : 128 <= s0 <= 191 -> first s0 = FInvalid.
Proof.
  intros H. unfold first.
  destruct (Z.ltb_spec s0 128); [lia|]. destruct (Z.ltb_spec s0 194); [done|lia].
Qed.

Ltac decide_bytes :=
  cbn; repeat (match goal with
  | |- context [Z.ltb ?a ?b] => destruct (Z.ltb_spec a b)
  | |- context [Nat.ltb ?a ?b] => destruct (Nat.ltb_spec a b)
  | |- context [Nat.leb ?a ?b] => destruct (Nat.leb_spec a b)
  end; cbn); try reflexivity; try lia.

Lemma decode_width (s : string) :
  s <> EmptyString ->
  (1 <= (DecodeRuneInString s).2 <= String.length s)%nat.
Proof.
  intros Hs. destruct s as [|c0 s]; [done|].
  unfold DecodeRuneInString.
  destruct (first (byte_val c0)) as [| |sz lo hi] eqn:Hf; cbn; try lia.
  destruct (first_multi _ _ _ _ Hf) as [Hsz _].
  destruct Hsz as [ -> | [ -> | -> ] ]; decide_bytes.
Qed.

(** Decoding the first rune of [u] never looks past [u] when what
    follows cannot continue a sequence. *)
Lemma decode_app (u r : string) :
  u <> EmptyString -> boundary r ->
  DecodeRuneInString (String.append u r) = DecodeRuneInString u.
Proof.
  intros Hu Hr. destruct u as [|c0 u]; [done|].
  unfold DecodeRuneInString; cbn [String.append].
  destruct (first (byte_val c0)) as [| |sz lo hi] eqn:Hf; try reflexivity.
  destruct (first_multi _ _ _ _ Hf) as [Hsz [Hlo Hhi]].
  unfold byte_at.
  destruct u as [|c1 [|c2 [|c3 u]]];
    destruct r as [|d r]; cbn [String.append String.get boundary] in *;
    rewrite ?str_app_nil_r;
    destruct Hsz as [ -> | [ -> | -> ] ]; decide_bytes.
Qed.

Lemma decode_space_boundary (s : string) :
  IsSpace (DecodeRuneInString s).1 = true -> boundary s.
Proof.
  destruct s as [|c0 s]; [done|]. simpl boundary. intros H.
  destruct (Z_le_gt_dec 128 (byte_val c0)) as [H1|H1]; [|lia].
  destruct (Z_le_gt_dec (byte_val c0) 191) as [H2|H2]; [|lia].
  exfalso. unfold DecodeRuneInString in H.
  rewrite first_invalid_cont in H by lia. done.
Qed.

(* ================================================================= *)
(** ** The rune sequence of a string *)

Lemma runes_fuel_irrel (f1 f2 : nat) (s : string) :
  (String.length s <= f1)%nat -> (String.length s <= f2)%nat ->
  runes_fuel f1 s = runes_fuel f2 s.
Proof.
  revert f2 s. induction f1 as [|f1 IH]; intros f2 s H1 H2.
  - destruct s; [by destruct f2 | simpl in H1; lia].
  - destruct f2 as [|f2]; [destruct s; [done | simpl in H2; lia]|].
    destruct s as [|c s]; [done|]. cbn [runes_fuel].
    pose proof (decode_width (String c s) ltac:(done)) as Hw.
    destruct (DecodeRuneInString (String c s)) as [r w]. simpl in Hw. f_equal.
    apply IH; rewrite str_length_drop; simpl in *; lia.
Qed.

Lemma runes_empty : runes EmptyString = [].
Proof. reflexivity. Qed.

Lemma runes_cons (s : string) (r : Z) (w : nat) :
  s <> EmptyString -> DecodeRuneInString s = (r, w) ->
  runes s = (r, str_take w s) :: runes (str_drop w s).
Proof.
  intros Hs Hd. pose proof (decode_width s Hs) as Hw. rewrite Hd in Hw. simpl in Hw.
  destruct s as [|c s']; [done|].
  unfold runes at 1. cbn [String.length runes_fuel]. rewrite Hd. f_equal.
  apply runes_fuel_irrel; rewrite str_length_drop; simpl in *; lia.
Qed.

Lemma chunks_bytes_app (l1 l2 : list (Z * string)) :
  chunks_bytes (l1 ++ l2) = String.append (chunks_bytes l1) (chunks_bytes l2).
Proof.
  induction l1 as [|[r c] l1 IH]; simpl; [done|]. by rewrite IH, str_app_assoc.
Qed.

Lemma chunks_bytes_runes (s : string) : chunks_bytes (runes s) = s.
Proof.
  remember (String.length s) as n eqn:Hn. revert s Hn.
  induction n as [n IH] using (well_founded_induction lt_wf). intros s Hn.
  destruct s as [|c s']; [done|].
  destruct (DecodeRuneInString (String c s')) as [r w] eqn:Hd.
  pose proof (decode_width (String c s') ltac:(done)) as Hw. rewrite Hd in Hw. simpl in Hw.
  rewrite (runes_cons _ r w) by done. simpl chunks_bytes.
  rewrite (IH (String.length (str_drop w (String c s')))).
  - apply str_take_drop.
  - rewrite str_length_drop. simpl in *. lia.
  - done.
Qed.

(** Decoding a concatenation splits at a boundary. *)
Lemma runes_app (u r : string) :
  boundary r -> runes (String.append u r) = runes u ++ runes r.
Proof.
  intros Hr. remember (String.length u) as n eqn:Hn. revert u Hn.
  induction n as [n IH] using (well_founded_induction lt_wf). intros u Hn.
  destruct u as [|c u']; [done|].
  destruct (DecodeRuneInString (String c u')) as [x w] eqn:Hd.
  pose proof (decode_width (String c u') ltac:(done)) as Hw. rewrite Hd in Hw. simpl in Hw.
  assert (Hd' : DecodeRuneInString (String.append (String c u') r) = (x, w)).
  { rewrite decode_app by done. done. }
  rewrite (runes_cons (String c u') x w) by done.
  rewrite (runes_cons (String.append (String c u') r) x w) by done.
  rewrite str_take_app, str_drop_app by (simpl in *; lia).
  rewrite (IH (String.length (str_drop w (String c u')))); [done| |done].
  rewrite str_length_drop. simpl in *. lia.
Qed.

(** A suffix of the rune sequence is the rune sequence of its bytes. *)
Lemma runes_suffix (P M : list (Z * string)) (s : string) :
  runes s = P ++ M -> runes (chunks_bytes M) = M.
Proof.
  revert s. induction P as [|x P IH]; intros s H.
  - simpl in H. rewrite <- H, chunks_bytes_runes. done.
  - destruct s as [|c s']; [done|].
    destruct (DecodeRuneInString (String c s')) as [r w] eqn:Hd.
    rewrite (runes_cons _ r w) in H by done. inversion H; subst.
    by apply (IH (str_drop w (String c s'))).
Qed.

Lemma runes_space_head_boundary (s : string) (x : Z * string) (M : list (Z * string)) :
  runes s = x :: M -> space_rune x -> boundary s.
Proof.
  intros H Hx. destruct s as [|c s']; [done|].
  destruct (DecodeRuneInString (String c s')) as [r w] eqn:Hd.
  rewrite (runes_cons _ r w) in H by done. inversion H; subst.
  apply decode_space_boundary. rewrite Hd. done.
Qed.

(** A prefix of the rune sequence that ends at the end or before a
    space rune is the rune sequence of its bytes. *)
Lemma runes_prefix (P M : list (Z * string)) (s : string) :
  runes s = P ++ M ->
  (M = [] \/ exists x M', M = x :: M' /\ space_rune x) ->
  runes (chunks_bytes P) = P.
Proof.
  intros H HM.
  assert (HsM : runes (chunks_bytes M) = M) by (eapply runes_suffix; eauto).
  assert (Hb : boundary (chunks_bytes M)).
  { destruct HM as [->|[x [M' [-> Hx]]]]; [done|].
    eapply runes_space_head_boundary; eauto. }
  assert (Hs : s = String.append (chunks_bytes P) (chunks_bytes M)).
  { rewrite <- chunks_bytes_app, <- H. symmetry. apply chunks_bytes_runes. }
  rewrite Hs, runes_app, HsM in H by done.
  eapply app_inv_tail. exact H.
Qed.

Lemma runes_chunk_nonempty (s : string) (x : Z * string) :
  In x (runes s) -> x.2 <> EmptyString.
Proof.
  remember (String.length s) as n eqn:Hn. revert s Hn.
  induction n as [n IH] using (well_founded_induction lt_wf). intros s Hn Hin.
  destruct s as [|c s']; [done|].
  destruct (DecodeRuneInString (String c s')) as [r w] eqn:Hd.
  pose proof (decode_width (String c s') ltac:(done)) as Hw. rewrite Hd in Hw. simpl in Hw.
  rewrite (runes_cons _ r w) in Hin by done. destruct Hin as [<-|Hin].
  - simpl. destruct w as [|w]; [lia|]. done.
  - assert (Hlt : (String.length (str_drop w (String c s')) < n)%nat)
      by (rewrite str_length_drop; simpl in *; lia).
    exact (IH _ Hlt _ eq_refl Hin).
Qed.

(* ================================================================= *)
(** ** strings.Fields *)

Lemma IsSpace_ascii (b : Z) : 0 <= b < 128 -> IsSpace b = asciiSpace b.
Proof.
  intros Hb. unfold IsSpace, asciiSpace.
  destruct (Z.leb_spec b 255); [|lia].
  rewrite (proj2 (Z.eqb_neq b 133)), (proj2 (Z.eqb_neq b 160)) by lia.
  rewrite !orb_false_r. done.
Qed.

Lemma runes_ascii_cons (c : ascii) (s : string) :
  byte_val c < 128 -> runes (String c s) = (byte_val c, String c EmptyString) :: runes s.
Proof.
  intros Hc. rewrite (runes_cons _ (byte_val c) 1%nat); [done|done|].
  unfold DecodeRuneInString, first. destruct (Z.ltb_spec (byte_val c) 128); [done|lia].
Qed.

(** The ASCII fast path computes the same fields as [FieldsFunc]. *)
Lemma fields_ascii_func (s : string) (cur : option string) :
  has_non_ascii s = false -> fields_ascii s cur = fields_func (runes s) cur.
Proof.
  revert cur. induction s as [|c s IH]; intros cur H; [done|].
  simpl in H. apply orb_false_iff in H as [Hc Hs]. apply Z.leb_gt in Hc.
  pose proof (byte_val_range c).
  rewrite runes_ascii_cons by done. simpl. rewrite IsSpace_ascii by lia.
  destruct (asciiSpace (byte_val c)); destruct cur; by rewrite IH.
Qed.

Lemma Fields_runes (s : string) : Fields s = fields_func (runes s) None.
Proof.
  unfold Fields. destruct (has_non_ascii s) eqn:H; [done|]. by apply fields_ascii_func.
Qed.

Lemma split_on_space_cons_space (x : Z * string) (L : list (Z * string)) (ts : list string) :
  space_rune x -> split_on_space L ts -> split_on_space (x :: L) ts.
Proof.
  intros Hx HL. inversion HL as [W HW | W T R ts' HW HT HTf HR Hrest]; subst.
  - apply split_end. by constructor.
  - apply (split_field (x :: W) T R ts'); auto.
Qed.

Lemma split_on_space_last (Cur : list (Z * string)) (L : list (Z * string)) (ts : list string) :
  Cur <> [] -> Forall field_rune Cur ->
  (L = [] \/ exists x L', L = x :: L' /\ space_rune x) ->
  split_on_space L ts ->
  split_on_space (Cur ++ L) (chunks_bytes Cur :: ts).
Proof.
  intros Hne Hf HL Hs. exact (split_field [] Cur L ts ltac:(by constructor) Hne Hf HL Hs).
Qed.

Lemma fields_func_split (L : list (Z * string)) :
  split_on_space L (fields_func L None) /\
  (forall Cur, Cur <> [] -> Forall field_rune Cur ->
     split_on_space (Cur ++ L) (fields_func L (Some (chunks_bytes Cur)))).
Proof.
  induction L as [|[r c] L [IHn IHs]].
  - split; [by apply split_end|].
    intros Cur Hne Hf. simpl.
    apply split_on_space_last; auto. by apply split_end.
  - simpl. destruct (IsSpace r) eqn:Hr.
    + split.
      * apply split_on_space_cons_space; [exact Hr | exact IHn].
      * intros Cur Hne Hf. apply split_on_space_last; auto.
        -- right. eexists _, _. split; [reflexivity | exact Hr].
        -- apply split_on_space_cons_space; [exact Hr | exact IHn].
    + split.
      * specialize (IHs [(r, c)]). simpl in IHs. rewrite str_app_nil_r in IHs.
        apply IHs; [done | by constructor].
      * intros Cur Hne Hf.
        specialize (IHs (Cur ++ [(r, c)])).
        rewrite chunks_bytes_app, <- app_assoc in IHs. simpl in IHs.
        rewrite str_app_nil_r in IHs. apply IHs.
        -- by destruct Cur.
        -- apply Forall_app; split; [done | by constructor].
Qed.

Lemma Fields_split (s : string) : split_on_space (runes s) (Fields s).
Proof. rewrite Fields_runes. apply fields_func_split. Qed.

(** A field is a non-empty run of non-space runes, also when decoded on
    its own. *)
Definition good_field (t : string) : Prop :=
  runes t <> [] /\ Forall field_rune (runes t).

Lemma split_on_space_good (L : list (Z * string)) (ts : list string) :
  split_on_space L ts -> runes (chunks_bytes L) = L -> Forall good_field ts.
Proof.
  induction 1 as [W HW | W T R ts HW HT HTf HR Hrest IH]; intros HSD; [done|].
  assert (HTR : runes (chunks_bytes (T ++ R)) = T ++ R) by (eapply runes_suffix; eauto).
  assert (HTT : runes (chunks_bytes T) = T) by (eapply runes_prefix; eauto).
  constructor.
  - unfold good_field. by rewrite HTT.
  - apply IH. rewrite app_assoc in HSD. eapply runes_suffix; eauto.
Qed.

Lemma fields_func_field_some (T L : list (Z * string)) (t : string) :
  Forall field_rune T ->
  fields_func (T ++ L) (Some t) = fields_func L (Some (String.append t (chunks_bytes T))).
Proof.
  revert t. induction T as [|[r c] T IH]; intros t HT; simpl.
  - by rewrite str_app_nil_r.
  - inversion HT as [|? ? Hr HT']; subst. unfold field_rune in Hr. simpl in Hr.
    rewrite Hr, IH by done. by rewrite str_app_assoc.
Qed.

Lemma fields_func_field (T L : list (Z * string)) :
  T <> [] -> Forall field_rune T ->
  fields_func (T ++ L) None = fields_func L (Some (chunks_bytes T)).
Proof.
  intros Hne HT. destruct T as [|[r c] T]; [done|].
  inversion HT as [|? ? Hr HT']; subst. unfold field_rune in Hr. simpl in Hr.
  simpl. rewrite Hr, fields_func_field_some by done. done.
Qed.

Lemma byte_val_space : byte_val " "%char = 32.
Proof. reflexivity. Qed.

Lemma runes_space_cons (rest : string) :
  runes (String " "%char rest) = (32, " ") :: runes rest.
Proof. rewrite runes_ascii_cons, byte_val_space; [done|]. rewrite byte_val_space. lia. Qed.

Lemma Fields_concat (ts : list string) :
  Forall good_field ts -> Fields (String.concat " " ts) = ts.
Proof.
  rewrite Fields_runes. induction ts as [|t ts IH]; intros Hts; [done|].
  inversion Hts as [|? ? [Hne Hf] Hts']; subst.
  assert (Ht : fields_func (runes t ++ []) None = [t]).
  { rewrite fields_func_field by done. simpl. by rewrite chunks_bytes_runes. }
  destruct ts as [|t' ts].
  - simpl. by rewrite app_nil_r in Ht.
  - change (String.concat " " (t :: t' :: ts))
      with (String.append t (String " "%char (String.concat " " (t' :: ts)))).
    rewrite runes_app by (simpl; rewrite byte_val_space; lia).
    rewrite runes_space_cons, fields_func_field by done.
    cbn [fields_func]. replace (IsSpace 32) with true by reflexivity.
    rewrite chunks_bytes_runes, IH by done. done.
Qed.

Lemma maximal_prefix_unique {A : Type} (P : A -> Prop) (A1 B1 A2 B2 : list A) :
  A1 ++ B1 = A2 ++ B2 -> Forall P A1 -> Forall P A2 ->
  (forall x B, B1 = x :: B -> ~ P x) -> (forall x B, B2 = x :: B -> ~ P x) ->
  A1 = A2 /\ B1 = B2.
Proof.
  revert A2. induction A1 as [|a A1 IH]; intros [|b A2] Heq H1 H2 HB1 HB2; simpl in *.
  - done.
  - subst B1. inversion H2; subst. exfalso. eapply HB1; eauto.
  - subst B2. inversion H1; subst. exfalso. eapply HB2; eauto.
  - inversion Heq; subst. inversion H1; inversion H2; subst.
    destruct (IH A2) as [-> ->]; auto.
Qed.

Lemma field_not_space (T R : list (Z * string)) :
  T <> [] -> Forall field_rune T -> forall x B, T ++ R = x :: B -> ~ space_rune x.
Proof.
  intros Hne HT x B Heq. destruct T as [|y T]; [done|]. simpl in Heq.
  inversion Heq; subst. inversion HT; subst. unfold field_rune, space_rune in *. congruence.
Qed.

Lemma after_field_not_field (R : list (Z * string)) :
  (R = [] \/ exists x R', R = x :: R' /\ space_rune x) ->
  forall x B, R = x :: B -> ~ field_rune x.
Proof.
  intros [->|[y [R' [-> Hy]]]] x B Heq; [done|]. inversion Heq; subst.
  unfold field_rune, space_rune in *. congruence.
Qed.

(** The split of a rune sequence into fields is unique. *)
Lemma split_on_space_unique (L : list (Z * string)) (ts1 ts2 : list string) :
  split_on_space L ts1 -> split_on_space L ts2 -> ts1 = ts2.
Proof.
  intros H1. revert ts2.
  induction H1 as [W HW | W T R ts HW HT HTf HR Hrest IH]; intros ts2 H2;
    inversion H2 as [W2 HW2 | W2 T2 R2 ts2' HW2 HT2 HTf2 HR2 Hrest2]; subst.
  - done.
  - exfalso. apply Forall_app in HW as [_ HW].
    apply Forall_app in HW as [HW _].
    destruct T2 as [|y T2]; [done|]. inversion HW; inversion HTf2; subst.
    unfold field_rune, space_rune in *. congruence.
  - exfalso. apply Forall_app in HW2 as [_ HW2].
    apply Forall_app in HW2 as [HW2 _].
    destruct T as [|y T]; [done|]. inversion HW2; inversion HTf; subst.
    unfold field_rune, space_rune in *. congruence.
  - match goal with Heq : _ ++ _ ++ _ = _ ++ _ ++ _ |- _ =>
      destruct (maximal_prefix_unique space_rune _ _ _ _ Heq) as [-> HTR];
      eauto using field_not_space end.
    destruct (maximal_prefix_unique field_rune _ _ _ _ HTR) as [-> ->];
      eauto using after_field_not_field.
    f_equal. by apply IH.
Qed.

Lemma Fields_good (s : string) : Forall good_field (Fields s).
Proof.
  apply (split_on_space_good (runes s)); [apply Fields_split|].
  by rewrite chunks_bytes_runes.
Qed.

(* ================================================================= *)
(** ** The name index *)

Lemma createCronJobMap_snoc (jobs : list CronJob) (j : CronJob) :
  createCronJobMap (jobs ++ [j]) = <[Name j := j]> (createCronJobMap jobs).
Proof. unfold createCronJobMap. by rewrite foldl_app. Qed.

Lemma list_filter_app {A : Type} (p : A -> bool) (l1 l2 : list A) :
  List.filter p (l1 ++ l2) = List.filter p l1 ++ List.filter p l2.
Proof. induction l1 as [|x l1 IH]; simpl; [done|]. destruct (p x); simpl; by rewrite IH. Qed.

Lemma createCronJobMap_last (jobs : list CronJob) (n : string) :
  createCronJobMap jobs !! n = last (List.filter (fun j => String.eqb (Name j) n) jobs).
Proof.
  induction jobs as [|j jobs IH] using rev_ind; [done|].
  rewrite createCronJobMap_snoc, list_filter_app. simpl.
  destruct (String.eqb_spec (Name j) n) as [<-|Hne].
  - by rewrite lookup_insert_eq, last_snoc.
  - by rewrite lookup_insert_ne, app_nil_r.
Qed.

Lemma createCronJobMap_Some (jobs : list CronJob) (n : string) (j : CronJob) :
  createCronJobMap jobs !! n = Some j -> Name j = n /\ In j jobs.
Proof.
  rewrite createCronJobMap_last. intros H.
  apply last_Some in H as [l' Hl].
  assert (Hin : In j (List.filter (fun j => String.eqb (Name j) n) jobs))
    by (rewrite Hl; apply in_or_app; simpl; auto).
  apply filter_In in Hin as [Hin Heq]. apply String.eqb_eq in Heq. done.
Qed.

Lemma createCronJobMap_In (jobs : list CronJob) (j : CronJob) :
  In j jobs -> is_Some (createCronJobMap jobs !! Name j).
Proof.
  intros Hin. rewrite createCronJobMap_last. apply last_is_Some.
  intros Hnil. assert (Hj : In j (List.filter (fun j' => String.eqb (Name j') (Name j)) jobs)).
  { apply filter_In. split; [done|]. apply String.eqb_refl. }
  by rewrite Hnil in Hj.
Qed.

Lemma createCronJobMap_None (jobs : list CronJob) (n : string) :
  (forall j, In j jobs -> Name j <> n) -> createCronJobMap jobs !! n = None.
Proof.
  intros H. destruct (createCronJobMap jobs !! n) as [j|] eqn:Hj; [|done].
  apply createCronJobMap_Some in Hj as [Hn Hin]. by destruct (H j Hin).
Qed.

(* ================================================================= *)
(** ** Map iteration orders *)

Lemma range_order_In (m : gmap string CronJob) (it : list (string * CronJob))
    (n : string) (j : CronJob) :
  range_order m it -> (In (n, j) it <-> m !! n = Some j).
Proof.
  intros Hit. rewrite <- list_elem_of_In, Hit. apply elem_of_map_to_list.
Qed.

Lemma range_order_NoDup (m : gmap string CronJob) (it : list (string * CronJob)) :
  range_order m it -> NoDup (it.*1).
Proof. intros Hit. rewrite Hit. apply NoDup_fst_map_to_list. Qed.

Lemma range_order_map_to_list (m : gmap string CronJob) : range_order m (map_to_list m).
Proof. unfold range_order. done. Qed.

Lemma range_order_perm (m : gmap string CronJob) (it1 it2 : list (string * CronJob)) :
  range_order m it1 -> range_order m it2 -> it1 ≡ₚ it2.
Proof. unfold range_order. intros -> ->. done. Qed.

Lemma compare_run_sorted (A B : list CronJob) : compare_run A B (compare_sorted A B).
Proof.
  exists (map_to_list (createCronJobMap A)), (map_to_list (createCronJobMap B)).
  split; [|split]; [apply range_order_map_to_list | apply range_order_map_to_list | done].
Qed.

(* ================================================================= *)
(** ** The two loops of compareCommands *)

Lemma prod_loop_flat_map (dev : gmap string CronJob) (it : list (string * CronJob)) :
  prod_loop dev it = flat_map (fun x => prod_entry dev x.1 x.2) it.
Proof. induction it as [|[n j] it IH]; simpl; [done|by rewrite IH]. Qed.

Lemma dev_loop_flat_map (prodM : gmap string CronJob) (it : list (string * CronJob)) :
  dev_loop prodM it = flat_map (fun x => dev_entry prodM x.1) it.
Proof. induction it as [|[n j] it IH]; simpl; [done|by rewrite IH]. Qed.

Lemma prod_entry_name (dev : gmap string CronJob) (n : string) (pj : CronJob) (r : JobDifference) :
  In r (prod_entry dev n pj) -> CronName r = n.
Proof.
  unfold prod_entry. intros Hin.
  destruct (dev !! n); [destruct (negb (String.eqb _ _)), (negb (String.eqb _ _))|];
    simpl in Hin; intuition (subst; reflexivity).
Qed.

Lemma dev_entry_record (prodM : gmap string CronJob) (n : string) (r : JobDifference) :
  In r (dev_entry prodM n) -> r = mkJobDifference n TypeOnlyDevelopment "" "".
Proof.
  unfold dev_entry. intros Hin. destruct (prodM !! n); simpl in Hin; intuition congruence.
Qed.

Lemma list_filter_nil {A : Type} (p : A -> bool) (l : list A) :
  (forall x, In x l -> p x = false) -> List.filter p l = [].
Proof.
  induction l as [|x l IH]; intros H; simpl; [done|].
  rewrite (H x (or_introl eq_refl)). apply IH. intros y Hy. apply H. by right.
Qed.

Lemma list_filter_all {A : Type} (p : A -> bool) (l : list A) :
  (forall x, In x l -> p x = true) -> List.filter p l = l.
Proof.
  induction l as [|x l IH]; intros H; simpl; [done|].
  rewrite (H x (or_introl eq_refl)). f_equal. apply IH. intros y Hy. apply H. by right.
Qed.

Lemma list_filter_andb {A : Type} (p q : A -> bool) (l : list A) :
  List.filter (fun x => p x && q x) l = List.filter q (List.filter p l).
Proof.
  induction l as [|x l IH]; [done|]. cbn [List.filter].
  destruct (p x); cbn [andb List.filter]; destruct (q x); cbn [List.filter]; by rewrite IH.
Qed.

Section FilterLoop.
Variable f : string * CronJob -> list JobDifference.
Variable p : JobDifference -> bool.
Variable n : string.
Hypothesis f_names : forall x r, In r (f x) -> CronName r = x.1.
Hypothesis p_name : forall r, p r = true -> CronName r = n.

Lemma filter_entry_other (x : string * CronJob) :
  x.1 <> n -> List.filter p (f x) = [].
Proof.
  intros Hx. apply list_filter_nil. intros r Hr.
  destruct (p r) eqn:Hp; [|done]. exfalso. apply Hx.
  rewrite <- (f_names x r Hr). by apply p_name.
Qed.

Lemma filter_loop_absent (it : list (string * CronJob)) :
  n ∉ it.*1 -> List.filter p (flat_map f it) = [].
Proof.
  induction it as [|x it IH]; intros Hn; [done|].
  simpl. rewrite list_filter_app, IH, filter_entry_other; [done| |].
  - intros <-. apply Hn. simpl. left.
  - intros Hin. apply Hn. simpl. by right.
Qed.

Lemma filter_loop_single (it : list (string * CronJob)) (j : CronJob) :
  NoDup (it.*1) -> In (n, j) it -> List.filter p (flat_map f it) = List.filter p (f (n, j)).
Proof.
  induction it as [|x it IH]; intros Hnd Hin; [done|].
  simpl in Hnd. apply NoDup_cons in Hnd as [Hx Hnd].
  simpl. rewrite list_filter_app. destruct Hin as [Hxe|Hin].
  - subst x. rewrite filter_loop_absent; [by rewrite app_nil_r | exact Hx].
  - assert (Hxn : x.1 <> n).
    { intros Heq. apply Hx. rewrite Heq.
      apply list_elem_of_In in Hin. by apply (list_elem_of_fmap_2 fst) in Hin. }
    rewrite filter_entry_other by done. simpl. by apply IH.
Qed.
End FilterLoop.

Ltac types_differ :=
  unfold TypeCommandDifference, TypeScheduleDifference,
    TypeOnlyProduction, TypeOnlyDevelopment in *; congruence.

(** What the body of the first loop appends for one production job. *)
Lemma prod_entry_In (dev : gmap string CronJob) (n : string) (pj : CronJob) (r : JobDifference) :
  In r (prod_entry dev n pj) ->
  (exists dj, dev !! n = Some dj /\
     ((r = mkJobDifference n TypeCommandDifference (Command pj) (Command dj) /\
       normalizeCommand (Command pj) <> normalizeCommand (Command dj)) \/
      (r = mkJobDifference n TypeScheduleDifference (Schedule pj) (Schedule dj) /\
       Schedule pj <> Schedule dj)))
  \/ (dev !! n = None /\ r = mkJobDifference n TypeOnlyProduction "" "").
Proof.
  unfold prod_entry. intros Hin. destruct (dev !! n) as [dj|] eqn:Hd.
  - left. exists dj. split; [done|].
    destruct (String.eqb_spec (normalizeCommand (Command pj)) (normalizeCommand (Command dj)));
    destruct (String.eqb_spec (Schedule pj) (Schedule dj));
    simpl in Hin; intuition (subst; auto).
  - right. simpl in Hin. intuition congruence.
Qed.

Lemma prod_entry_command (dev : gmap string CronJob) (n : string) (pj dj : CronJob) :
  dev !! n = Some dj ->
  normalizeCommand (Command pj) <> normalizeCommand (Command dj) ->
  In (mkJobDifference n TypeCommandDifference (Command pj) (Command dj)) (prod_entry dev n pj).
Proof.
  intros Hd Hne. unfold prod_entry. rewrite Hd.
  destruct (String.eqb_spec (normalizeCommand (Command pj)) (normalizeCommand (Command dj)));
    [done|]. simpl. by left.
Qed.

Lemma prod_entry_schedule (dev : gmap string CronJob) (n : string) (pj dj : CronJob) :
  dev !! n = Some dj -> Schedule pj <> Schedule dj ->
  In (mkJobDifference n TypeScheduleDifference (Schedule pj) (Schedule dj)) (prod_entry dev n pj).
Proof.
  intros Hd Hne. unfold prod_entry. rewrite Hd. apply in_or_app. right.
  destruct (String.eqb_spec (Schedule pj) (Schedule dj)); [done|]. simpl. by left.
Qed.

Lemma prod_entry_same (dev : gmap string CronJob) (n : string) (pj : CronJob) :
  dev !! n = Some pj -> prod_entry dev n pj = [].
Proof. intros Hd. unfold prod_entry. rewrite Hd, !String.eqb_refl. done. Qed.

Lemma flat_map_nil {A B : Type} (f : A -> list B) (l : list A) :
  (forall x, In x l -> f x = []) -> flat_map f l = [].
Proof.
  induction l as [|x l IH]; intros H; simpl; [done|].
  rewrite H by (by left). apply IH. intros y Hy. apply H. by right.
Qed.

Lemma flat_map_perm {A B : Type} (f : A -> list B) (l1 l2 : list A) :
  l1 ≡ₚ l2 -> flat_map f l1 ≡ₚ flat_map f l2.
Proof.
  induction 1 as [|x l1 l2 _ IH|x y l|l1 l2 l3 _ IH1 _ IH2]; simpl.
  - done.
  - by apply Permutation_app_head.
  - apply Permutation_app_swap_app.
  - by rewrite IH1.
Qed.

Lemma range_order_not_in (m : gmap string CronJob) (it : list (string * CronJob)) (n : string) :
  range_order m it -> m !! n = None -> n ∉ it.*1.
Proof.
  intros Hit Hn Hin. apply list_elem_of_fmap_1 in Hin as [[n' j] [Heq Hin]].
  simpl in Heq. subst n'. apply list_elem_of_In in Hin.
  apply (range_order_In m it n j Hit) in Hin. congruence.
Qed.

(* ================================================================= *)
(** ** One run of compareCommands *)

Section Run.
Variables (A B : list CronJob) (out : list JobDifference).
Hypothesis Hrun : compare_run A B out.

Lemma compare_run_In (r : JobDifference) :
  In r out ->
  (exists pj, createCronJobMap A !! CronName r = Some pj /\
              In r (prod_entry (createCronJobMap B) (CronName r) pj))
  \/ (r = mkJobDifference (CronName r) TypeOnlyDevelopment "" "" /\
      createCronJobMap A !! CronName r = None /\
      is_Some (createCronJobMap B !! CronName r)).
Proof.
  destruct Hrun as (itP & itD & HP & HD & ->). intros Hin.
  unfold compareCommands in Hin. rewrite prod_loop_flat_map, dev_loop_flat_map in Hin.
  apply in_app_or in Hin as [Hin|Hin]; apply in_flat_map in Hin as [[m j] [Hx Hr]]; simpl in Hr.
  - left. rewrite (prod_entry_name _ _ _ _ Hr). exists j. split; [|done].
    exact (proj1 (range_order_In _ itP m j HP) Hx).
  - right. pose proof (dev_entry_record _ _ _ Hr) as ->. simpl.
    unfold dev_entry in Hr. destruct (createCronJobMap A !! m); [done|].
    split; [done|]. split; [done|]. exists j. exact (proj1 (range_order_In _ itD m j HD) Hx).
Qed.

Lemma compare_run_In_prod (n : string) (pj : CronJob) (r : JobDifference) :
  createCronJobMap A !! n = Some pj -> In r (prod_entry (createCronJobMap B) n pj) -> In r out.
Proof.
  destruct Hrun as (itP & itD & HP & HD & ->). intros Hp Hr.
  unfold compareCommands. rewrite prod_loop_flat_map. apply in_or_app. left.
  apply in_flat_map. exists (n, pj). split; [|done]. exact (proj2 (range_order_In _ itP n pj HP) Hp).
Qed.

Lemma compare_run_only_prod (n : string) :
  is_Some (createCronJobMap A !! n) -> createCronJobMap B !! n = None ->
  List.filter (fun r => String.eqb (CronName r) n) out
  = [mkJobDifference n TypeOnlyProduction "" ""].
Proof.
  destruct Hrun as (itP & itD & HP & HD & ->). intros [pj Hp] Hd.
  unfold compareCommands. rewrite prod_loop_flat_map, dev_loop_flat_map, list_filter_app.
  rewrite (filter_loop_single _ _ n) with (j := pj).
  - rewrite (filter_loop_absent _ _ n).
    + rewrite app_nil_r. cbn [fst snd]. unfold prod_entry. rewrite Hd.
      cbn [List.filter CronName]. by rewrite String.eqb_refl.
    + intros x r Hr. by rewrite (dev_entry_record _ _ _ Hr).
    + intros r Hr. by apply String.eqb_eq.
    + by apply (range_order_not_in (createCronJobMap B)).
  - intros x r Hr. by apply (prod_entry_name _ _ _ _ Hr).
  - intros r Hr. by apply String.eqb_eq.
  - by apply (range_order_NoDup (createCronJobMap A)).
  - exact (proj2 (range_order_In _ itP n pj HP) Hp).
Qed.

Lemma compare_run_only_dev (n : string) :
  createCronJobMap A !! n = None -> is_Some (createCronJobMap B !! n) ->
  List.filter (fun r => String.eqb (CronName r) n) out
  = [mkJobDifference n TypeOnlyDevelopment "" ""].
Proof.
  destruct Hrun as (itP & itD & HP & HD & ->). intros Hp [dj Hd].
  unfold compareCommands. rewrite prod_loop_flat_map, dev_loop_flat_map, list_filter_app.
  rewrite (filter_loop_absent _ _ n).
  - rewrite (filter_loop_single _ _ n) with (j := dj).
    + cbn [fst snd]. unfold dev_entry. rewrite Hp.
      cbn [List.filter CronName app]. by rewrite String.eqb_refl.
    + intros x r Hr. by rewrite (dev_entry_record _ _ _ Hr).
    + intros r Hr. by apply String.eqb_eq.
    + by apply (range_order_NoDup (createCronJobMap B)).
    + exact (proj2 (range_order_In _ itD n dj HD) Hd).
  - intros x r Hr. by apply (prod_entry_name _ _ _ _ Hr).
  - intros r Hr. by apply String.eqb_eq.
  - by apply (range_order_not_in (createCronJobMap A)).
Qed.

Lemma compare_run_both (n : string) (pj dj : CronJob) :
  createCronJobMap A !! n = Some pj -> createCronJobMap B !! n = Some dj ->
  List.filter (fun r => String.eqb (CronName r) n) out = prod_entry (createCronJobMap B) n pj.
Proof.
  destruct Hrun as (itP & itD & HP & HD & ->). intros Hp Hd.
  unfold compareCommands. rewrite prod_loop_flat_map, dev_loop_flat_map, list_filter_app.
  rewrite (filter_loop_single _ _ n) with (j := pj).
  - rewrite (filter_loop_single _ _ n) with (j := dj).
    + cbn [fst snd]. unfold dev_entry. rewrite Hp. cbn [List.filter]. rewrite app_nil_r.
      apply list_filter_all. intros r Hr. apply String.eqb_eq. exact (prod_entry_name _ _ _ _ Hr).
    + intros x r Hr. by rewrite (dev_entry_record _ _ _ Hr).
    + intros r Hr. by apply String.eqb_eq.
    + by apply (range_order_NoDup (createCronJobMap B)).
    + exact (proj2 (range_order_In _ itD n dj HD) Hd).
  - intros x r Hr. by apply (prod_entry_name _ _ _ _ Hr).
  - intros r Hr. by apply String.eqb_eq.
  - by apply (range_order_NoDup (createCronJobMap A)).
  - exact (proj2 (range_order_In _ itP n pj HP) Hp).
Qed.

Lemma compare_run_none (n : string) :
  createCronJobMap A !! n = None -> createCronJobMap B !! n = None ->
  List.filter (fun r => String.eqb (CronName r) n) out = [].
Proof.
  intros Hp Hd. apply list_filter_nil. intros r Hr.
  destruct (String.eqb_spec (CronName r) n) as [Heq|]; [|done]. exfalso. subst n.
  destruct (compare_run_In r Hr) as [[pj [Hp' _]]|[_ [_ [x Hx]]]]; congruence.
Qed.
End Run.

Lemma json_has_one (r : JobDifference) :
  Production r <> Development r ->
  json_has "production" r = true \/ json_has "development" r = true.
Proof.
  destruct r as [c t p d]. unfold json_has, json_fields. cbn [Production Development].
  intros Hne. destruct (String.eqb_spec p ""), (String.eqb_spec d ""); [congruence| | |];
    vm_compute; auto.
Qed.

(* ================================================================= *)
(** ** Fields and the blank runes *)

Lemma str_concat_empty_cons (x : string) (l : list string) :
  String.concat "" (x :: l) = String.append x (String.concat "" l).
Proof. destruct l as [|y l]; simpl; [by rewrite str_app_nil_r | done]. Qed.

Lemma Fields_nil_iff (s : string) : Fields s = [] <-> Forall space_rune (runes s).
Proof.
  pose proof (Fields_split s) as Hs. split.
  - intros Hf. rewrite Hf in Hs. inversion Hs. done.
  - intros Hall. destruct (Fields s) as [|t ts] eqn:E; [done|]. exfalso.
    inversion Hs as [|W T R ts' HW HT HTf HR Hrest]; subst.
    match goal with H : W ++ T ++ R = runes s |- _ => rewrite <- H in Hall end.
    apply Forall_app in Hall as [_ Hall]. apply Forall_app in Hall as [HTs _].
    destruct T as [|x T]; [done|].
    inversion HTs as [|? ? Hx _]. inversion HTf as [|? ? Hx' _]. subst.
    unfold space_rune, field_rune in *. congruence.
Qed.

Lemma concat_good_nil (ts : list string) :
  Forall good_field ts -> String.concat " " ts = "" -> ts = [].
Proof.
  intros Hts Hc. destruct ts as [|t l]; [done|]. exfalso.
  inversion Hts as [|? ? [Ht _] _]; subst.
  assert (t = "") as ->.
  { destruct l as [|t' l]; simpl in Hc; [done|]. destruct t; [done | discriminate]. }
  by apply Ht.
Qed.

Lemma split_on_space_nonspace (L : list (Z * string)) (ts : list string) :
  split_on_space L ts ->
  chunks_bytes (List.filter (fun x => negb (IsSpace x.1)) L) = String.concat "" ts.
Proof.
  induction 1 as [W HW | W T R ts HW HT HTf HR Hrest IH].
  - rewrite list_filter_nil; [done|]. intros x Hx.
    rewrite List.Forall_forall in HW. specialize (HW x Hx). unfold space_rune in HW.
    by rewrite HW.
  - rewrite !list_filter_app, (list_filter_nil _ W), (list_filter_all _ T).
    + by rewrite app_nil_l, chunks_bytes_app, IH, str_concat_empty_cons.
    + intros x Hx. rewrite List.Forall_forall in HTf. specialize (HTf x Hx).
      unfold field_rune in HTf. by rewrite HTf.
    + intros x Hx. rewrite List.Forall_forall in HW. specialize (HW x Hx).
      unfold space_rune in HW. by rewrite HW.
Qed.

(* ================================================================= *)
(** ** The records of one name; runs in other orders or directions *)

Lemma prod_entry_lookup (dev dev' : gmap string CronJob) (n : string) (pj : CronJob) :
  dev !! n = dev' !! n -> prod_entry dev n pj = prod_entry dev' n pj.
Proof. unfold prod_entry. by intros ->. Qed.

Lemma prod_entry_swap (mA mB : gmap string CronJob) (n : string) (pj dj : CronJob) :
  mA !! n = Some pj -> mB !! n = Some dj ->
  prod_entry mA n dj = map mirror (prod_entry mB n pj).
Proof.
  intros Hp Hd. unfold prod_entry. rewrite Hp, Hd.
  rewrite (String.eqb_sym (normalizeCommand (Command dj))), (String.eqb_sym (Schedule dj)).
  destruct (String.eqb _ _), (String.eqb _ _); reflexivity.
Qed.

Lemma filter_name_mirror (l : list JobDifference) (n : string) :
  List.filter (fun r => String.eqb (CronName r) n) (map mirror l)
  = map mirror (List.filter (fun r => String.eqb (CronName r) n) l).
Proof.
  induction l as [|r l IH]; simpl; [done|].
  destruct (String.eqb (CronName r) n); simpl; by rewrite IH.
Qed.

Lemma count_occ_filter_name (l : list JobDifference) (x : JobDifference) :
  count_occ JobDifference_eq_dec l x
  = count_occ JobDifference_eq_dec
      (List.filter (fun r => String.eqb (CronName r) (CronName x)) l) x.
Proof.
  induction l as [|y l IH]; simpl; [done|].
  destruct (String.eqb_spec (CronName y) (CronName x)) as [Hn|Hn]; simpl.
  - destruct (JobDifference_eq_dec y x); by rewrite IH.
  - destruct (JobDifference_eq_dec y x) as [->|]; [done|]. exact IH.
Qed.

Lemma perm_by_name (l1 l2 : list JobDifference) :
  (forall n, List.filter (fun r => String.eqb (CronName r) n) l1
             = List.filter (fun r => String.eqb (CronName r) n) l2) ->
  l1 ≡ₚ l2.
Proof.
  intros H. apply (Permutation_count_occ JobDifference_eq_dec). intros x.
  by rewrite (count_occ_filter_name l1), (count_occ_filter_name l2), H.
Qed.

Lemma compare_orders_perm (A B : list CronJob) (itP itD itP' itD' : list (string * CronJob)) :
  range_order (createCronJobMap A) itP -> range_order (createCronJobMap A) itP' ->
  range_order (createCronJobMap B) itD -> range_order (createCronJobMap B) itD' ->
  compareCommands A B itP itD ≡ₚ compareCommands A B itP' itD'.
Proof.
  intros HP HP' HD HD'. unfold compareCommands. rewrite !prod_loop_flat_map, !dev_loop_flat_map.
  apply Permutation_app; apply flat_map_perm; eapply range_order_perm; eauto.
Qed.

Lemma dev_loop_lookup (prodM : gmap string CronJob) (it : list (string * CronJob))
    (r : JobDifference) :
  In r (dev_loop prodM it) -> prodM !! CronName r = None.
Proof.
  rewrite dev_loop_flat_map. intros Hr. apply in_flat_map in Hr as [[m j] [_ Hr]].
  simpl in Hr. unfold dev_entry in Hr. destruct (prodM !! m) eqn:E; [done|].
  destruct Hr as [<-|[]]. exact E.
Qed.

Lemma prod_loop_key (devM : gmap string CronJob) (it : list (string * CronJob))
    (r : JobDifference) :
  In r (prod_loop devM it) -> exists pj, In (CronName r, pj) it.
Proof.
  rewrite prod_loop_flat_map. intros Hr. apply in_flat_map in Hr as [[m pj] [Hx Hr]].
  simpl in Hr. rewrite (prod_entry_name _ _ _ _ Hr). by exists pj.
Qed.

(* ================================================================= *)
(** ** The text branch *)

Lemma text_prod_entry_nil (devM : gmap string CronJob) (n : string) (pj : CronJob) :
  text_prod_entry devM n pj = "" <-> prod_entry devM n pj = [].
Proof.
  unfold text_prod_entry, prod_entry. destruct (devM !! n) as [dj|].
  - destruct (negb _), (negb _); split; intros H; try done;
      vm_compute in H; discriminate H.
  - split; intros H; [vm_compute in H|]; discriminate H.
Qed.

Lemma text_prod_loop_names (devM : gmap string CronJob) (it : list (string * CronJob))
    (n : string) :
  In n (map fst (text_prod_loop devM it)) <->
  exists r, In r (prod_loop devM it) /\ CronName r = n.
Proof.
  induction it as [|[m pj] it IH]; simpl.
  - split; [done|]. intros (r & [] & _).
  - rewrite map_app, in_app_iff, IH.
    destruct (String.eqb_spec (text_prod_entry devM m pj) "") as [He|He].
    + apply text_prod_entry_nil in He. rewrite He. simpl. tauto.
    + simpl. split.
      * intros [[<-|[]]|(r & Hr & Hn)].
        -- destruct (prod_entry devM m pj) as [|r0 l] eqn:E.
           ++ exfalso. apply He. by apply text_prod_entry_nil.
           ++ exists r0. split; [apply in_or_app; left; by left|].
              apply (prod_entry_name devM m pj). rewrite E. by left.
        -- exists r. split; [apply in_or_app; by right | done].
      * intros (r & Hr & Hn). apply in_app_or in Hr as [Hr|Hr].
        -- left. left. rewrite <- Hn. symmetry. exact (prod_entry_name _ _ _ _ Hr).
        -- right. by exists r.
Qed.

Lemma text_dev_loop_names (prodM : gmap string CronJob) (it : list (string * CronJob))
    (n : string) :
  In n (map fst (text_dev_loop prodM it)) <->
  exists r, In r (dev_loop prodM it) /\ CronName r = n.
Proof.
  induction it as [|[m j] it IH]; simpl.
  - split; [done|]. intros (r & [] & _).
  - rewrite map_app, in_app_iff, IH. unfold dev_entry.
    destruct (prodM !! m); simpl; [tauto|]. split.
    + intros [[<-|[]]|(r & Hr & Hn)].
      * eexists. split; [by left | done].
      * exists r. split; [by right | done].
    + intros (r & [<-|Hr] & Hn).
      * left. by left.
      * right. by exists r.
Qed.

Lemma text_prod_loop_sublist (devM : gmap string CronJob) (it : list (string * CronJob)) :
  map fst (text_prod_loop devM it) `sublist_of` map fst it.
Proof.
  induction it as [|[m pj] it IH]; simpl; [done|].
  destruct (String.eqb _ _); simpl; [by apply sublist_cons | by apply sublist_skip].
Qed.

Lemma text_dev_loop_sublist (prodM : gmap string CronJob) (it : list (string * CronJob)) :
  map fst (text_dev_loop prodM it) `sublist_of` map fst it.
Proof.
  induction it as [|[m j] it IH]; simpl; [done|].
  destruct (prodM !! m); simpl; [by apply sublist_cons | by apply sublist_skip].
Qed.

Lemma str_app_inv_l (a x y : string) : String.append a x = String.append a y -> x = y.
Proof. induction a as [|c a IH]; simpl; [done|]. intros H. injection H. exact IH. Qed.

Lemma table_row_nonempty (a b : string) : table_row a b <> "".
Proof.
  intros H. apply (f_equal String.length) in H.
  unfold table_row, str1 in H. rewrite !str_length_app in H. simpl in H. lia.
Qed.

Lemma text_table_input_header (rows : list (string * string)) :
  text_table_input rows
  = String.append (table_row "Cron Name" "Difference") (table_row "---------" "----------")
  <-> rows = [].
Proof.
  unfold text_table_input. rewrite !str_concat_empty_cons. split.
  - intros H. apply str_app_inv_l in H.
    rewrite <- (str_app_nil_r (table_row "---------" "----------")) in H at 2.
    apply str_app_inv_l in H.
    destruct rows as [|[a b] rows]; [done|]. exfalso.
    cbn [map fst snd] in H. rewrite str_concat_empty_cons in H.
    destruct (table_row a b) eqn:E; [by apply (table_row_nonempty a b) | discriminate].
  - intros ->. vm_compute. reflexivity.
Qed.

(* ================================================================= *)
(** ** What the JSON encoder writes *)

(** Bytes that may stand in a JSON string literal, runes that are valid
    and not U+2028 or U+2029, and a first byte that does not continue a
    sequence. *)
Definition json_text_ok (u : string) : Prop :=
  Forall json_safe_byte (bytes_of u) /\ Forall json_safe_rune (runes u) /\ boundary u.

(** Valid UTF-8 (no byte decodes as a width-1 [RuneError]). *)
Definition utf8_ok (u : string) : Prop :=
  Forall (fun x => ~ (x.1 = RuneError /\ String.length x.2 = 1%nat)) (runes u) /\ boundary u.

Definition json_ascii_okb (b : Z) : bool :=
  (b <? 128) && (32 <=? b) && negb ((b =? 38) || (b =? 60) || (b =? 62)).

Ltac bool_facts :=
  repeat match goal with
  | E : (_ && _) = true |- _ => apply andb_true_iff in E as [? ?]
  | E : (_ || _) = false |- _ => apply orb_false_iff in E as [? ?]
  | E : negb _ = true |- _ => apply negb_true_iff in E
  | E : (_ <? _) = true |- _ => apply Z.ltb_lt in E
  | E : (_ <? _) = false |- _ => apply Z.ltb_ge in E
  | E : (_ <=? _) = true |- _ => apply Z.leb_le in E
  | E : (_ =? _) = false |- _ => apply Z.eqb_neq in E
  end.

Lemma json_ascii_okb_sound (l : list Z) :
  forallb json_ascii_okb l = true -> Forall json_ascii_ok l.
Proof.
  induction l as [|b l IH]; simpl; [constructor|].
  intros H. apply andb_true_iff in H as [Hb Hl]. constructor; [|by apply IH].
  unfold json_ascii_okb in Hb. unfold json_ascii_ok, json_safe_byte. bool_facts. lia.
Qed.

Lemma ascii_bytes_sound (l : list Z) :
  forallb (fun b => b <? 128) l = true -> Forall (fun b => b < 128) l.
Proof.
  induction l as [|b l IH]; simpl; [constructor|].
  intros H. bool_facts. constructor; [lia | by apply IH].
Qed.

Lemma bytes_of_app (a b : string) :
  bytes_of (String.append a b) = bytes_of a ++ bytes_of b.
Proof. induction a as [|c a IH]; simpl; [done | by rewrite IH]. Qed.

Lemma str_drop_take (n : nat) (s : string) : str_drop n (str_take n s) = EmptyString.
Proof. revert s; induction n as [|n IH]; intros [|c s]; simpl; done. Qed.

Lemma str_length_take (n : nat) (s : string) :
  (n <= String.length s)%nat -> String.length (str_take n s) = n.
Proof.
  revert s; induction n as [|n IH]; intros [|c s] Hn; simpl in *; try done; try lia.
  rewrite IH; [done | lia].
Qed.

Lemma boundary_app (u v : string) : boundary u -> boundary v -> boundary (String.append u v).
Proof. destruct u; simpl; auto. Qed.

Lemma json_text_ok_app (u v : string) :
  json_text_ok u -> json_text_ok v -> json_text_ok (String.append u v).
Proof.
  intros (Hb1 & Hr1 & Hd1) (Hb2 & Hr2 & Hd2). split; [|split].
  - rewrite bytes_of_app. apply Forall_app. by split.
  - rewrite runes_app by done. apply Forall_app. by split.
  - by apply boundary_app.
Qed.

Lemma utf8_ok_app (u v : string) :
  utf8_ok u -> utf8_ok v -> utf8_ok (String.append u v).
Proof.
  intros (Hr1 & Hd1) (Hr2 & Hd2). split.
  - rewrite runes_app by done. apply Forall_app. by split.
  - by apply boundary_app.
Qed.

Lemma utf8_ok_text (u : string) : json_text_ok u -> utf8_ok u.
Proof.
  intros (_ & Hr & Hd). split; [|done].
  rewrite List.Forall_forall in *. intros x Hx. apply (Hr x Hx).
Qed.

Lemma json_text_ok_ascii (u : string) :
  Forall json_ascii_ok (bytes_of u) -> json_text_ok u.
Proof.
  induction u as [|c u IH]; intros H.
  - split; [constructor|]. split; [rewrite runes_empty; constructor | done].
  - simpl in H. inversion H as [|? ? [Hc Hs] Hu]; subst.
    destruct (IH Hu) as (Hb & Hr & _). split; [|split].
    + simpl. by constructor.
    + rewrite runes_ascii_cons by done. constructor; [|done].
      unfold json_safe_rune, RuneError. simpl. lia.
    + simpl. by left.
Qed.

Lemma utf8_ok_ascii (u : string) :
  Forall (fun b => b < 128) (bytes_of u) -> utf8_ok u.
Proof.
  induction u as [|c u IH]; intros H.
  - split; [rewrite runes_empty; constructor | done].
  - simpl in H. inversion H as [|? ? Hc Hu]; subst.
    destruct (IH Hu) as (Hr & _). split.
    + rewrite runes_ascii_cons by done. constructor; [|done].
      unfold RuneError. simpl. lia.
    + simpl. by left.
Qed.

Lemma utf8_ok_concat (sep : string) (l : list string) :
  utf8_ok sep -> Forall utf8_ok l -> utf8_ok (String.concat sep l).
Proof.
  intros Hsep Hl. induction Hl as [|x l Hx Hl IH]; [apply utf8_ok_ascii; constructor|].
  destruct l as [|y l]; simpl; [exact Hx|].
  apply utf8_ok_app; [exact Hx|]. by apply utf8_ok_app.
Qed.

Lemma hex_at_ok (i : Z) : Forall json_ascii_ok (bytes_of (hex_at i)).
Proof.
  unfold hex_at. generalize (Z.to_nat i) as k. intros k.
  do 16 (destruct k as [|k]; [apply json_ascii_okb_sound; reflexivity|]).
  cbv. constructor.
Qed.

Lemma escape_ascii_ok (b : Z) : Forall json_ascii_ok (bytes_of (escape_ascii b)).
Proof.
  unfold escape_ascii.
  destruct ((b =? 92) || (b =? 34)) eqn:E.
  { apply orb_true_iff in E as [E|E]; apply Z.eqb_eq in E; subst b;
      apply json_ascii_okb_sound; reflexivity. }
  destruct (b =? 8); [apply json_ascii_okb_sound; reflexivity|].
  destruct (b =? 12); [apply json_ascii_okb_sound; reflexivity|].
  destruct (b =? 10); [apply json_ascii_okb_sound; reflexivity|].
  destruct (b =? 13); [apply json_ascii_okb_sound; reflexivity|].
  destruct (b =? 9); [apply json_ascii_okb_sound; reflexivity|].
  rewrite !bytes_of_app. apply Forall_app; split; [apply json_ascii_okb_sound; reflexivity|].
  apply Forall_app; split; apply hex_at_ok.
Qed.

Lemma htmlSafeSet_ok (b : Z) : htmlSafeSet b = true -> json_ascii_ok b.
Proof. unfold htmlSafeSet, json_ascii_ok, json_safe_byte. intros H. bool_facts. lia. Qed.

Lemma first_ascii (s0 : Z) : first s0 = FAscii -> s0 < 128.
Proof.
  unfold first. destruct (Z.ltb_spec s0 128); [done|].
  intros Hf. repeat match type of Hf with
  | context [if ?b then _ else _] => destruct b
  end; discriminate.
Qed.

Lemma first_multi_lead (s0 : Z) (sz : nat) (lo hi : Z) :
  first s0 = FMulti sz lo hi -> 191 < s0.
Proof.
  unfold first. destruct (Z.ltb_spec s0 128); [discriminate|].
  destruct (Z.ltb_spec s0 194); [discriminate|]. intros _. lia.
Qed.

Ltac split_ifs_in H :=
  repeat match type of H with
  | context [if ?b then _ else _] => let E := fresh "E" in destruct b eqn:E
  end.

(** A non-ASCII leading byte decodes with width 1 only as an error. *)
Lemma decode_width_one (c0 : ascii) (s : string) (r : Z) :
  128 <= byte_val c0 -> DecodeRuneInString (String c0 s) = (r, 1%nat) -> r = RuneError.
Proof.
  intros Hc H. unfold DecodeRuneInString in H.
  destruct (first (byte_val c0)) as [| |sz lo hi] eqn:Hf.
  - apply first_ascii in Hf. lia.
  - by inversion H.
  - destruct (first_multi _ _ _ _ Hf) as [Hsz _].
    destruct Hsz as [ -> | [ -> | -> ] ]; destruct s as [|c1 [|c2 [|c3 s]]]; cbn in H;
      split_ifs_in H; inversion H; done.
Qed.

(** A rune decoded with two bytes or more: its lead byte is above the
    continuation bytes, its bytes are not ASCII, and decoding reads no
    further than them. *)
Lemma decode_multi (c0 : ascii) (s t : string) (r : Z) (w : nat) :
  DecodeRuneInString (String c0 s) = (r, w) -> (2 <= w)%nat ->
  DecodeRuneInString (String.append (str_take w (String c0 s)) t) = (r, w) /\
  191 < byte_val c0 /\ Forall (fun b => 128 <= b) (bytes_of (str_take w (String c0 s))).
Proof.
  intros H Hw. unfold DecodeRuneInString in H.
  destruct (first (byte_val c0)) as [| |sz lo hi] eqn:Hf.
  - injection H; intros; subst; lia.
  - injection H; intros; subst; lia.
  - pose proof (first_multi_lead _ _ _ _ Hf) as Hlead.
    destruct (first_multi _ _ _ _ Hf) as [Hsz [Hlo Hhi]].
    destruct Hsz as [ -> | [ -> | -> ] ]; destruct s as [|c1 [|c2 [|c3 s]]]; cbn in H;
      split_ifs_in H; injection H; intros; subst; try lia;
      unfold DecodeRuneInString; cbn [str_take String.append]; rewrite Hf; cbn;
      repeat match goal with E : ?b = false |- context [?b] => rewrite E end;
      cbn; bool_facts; (split; [reflexivity|]); (split; [lia|]);
      repeat constructor; lia.
Qed.

Lemma json_escape_fuel_ok (fuel : nat) (s : string) :
  (String.length s <= fuel)%nat -> json_text_ok (json_escape_fuel fuel s).
Proof.
  revert s. induction fuel as [|f IH]; intros s Hs.
  - apply json_text_ok_ascii. constructor.
  - destruct s as [|c rest]; [apply json_text_ok_ascii; constructor|].
    cbn [json_escape_fuel].
    destruct (Z.ltb_spec (byte_val c) 128) as [Hc|Hc].
    + apply json_text_ok_app; [|apply IH; simpl in Hs; lia].
      destruct (htmlSafeSet (byte_val c)) eqn:Hh.
      * apply json_text_ok_ascii. simpl. constructor; [|constructor].
        by apply htmlSafeSet_ok.
      * apply json_text_ok_ascii, escape_ascii_ok.
    + destruct (DecodeRuneInString (String c rest)) as [r size] eqn:Hd.
      pose proof (decode_width (String c rest) ltac:(done)) as Hw.
      rewrite Hd in Hw. simpl in Hw.
      assert (Hrest : json_text_ok (json_escape_fuel f (str_drop size (String c rest)))).
      { apply IH. rewrite str_length_drop. simpl in *. lia. }
      apply json_text_ok_app; [|exact Hrest].
      destruct ((r =? RuneError) && (size =? 1)%nat) eqn:E1.
      { apply json_text_ok_ascii, json_ascii_okb_sound. reflexivity. }
      destruct ((r =? 8232) || (r =? 8233)) eqn:E2.
      { apply json_text_ok_ascii. rewrite bytes_of_app. apply Forall_app.
        split; [apply json_ascii_okb_sound; reflexivity | apply hex_at_ok]. }
      assert (Hsz : size <> 1%nat).
      { intros ->. apply decode_width_one in Hd; [|done]. subst r.
        vm_compute in E1. discriminate. }
      destruct (decode_multi c rest "" r size Hd ltac:(lia)) as (Hd' & Hlead & Hbytes).
      rewrite str_app_nil_r in Hd'. bool_facts. split; [|split].
      * rewrite List.Forall_forall in *. intros b Hb. specialize (Hbytes b Hb).
        unfold json_safe_byte. lia.
      * rewrite (runes_cons _ r size); [| |exact Hd'].
        -- rewrite str_drop_take, runes_empty. constructor; [|constructor].
           unfold json_safe_rune. simpl fst. simpl snd.
           assert (Hl : String.length (str_take size (String c rest)) = size)
             by (apply str_length_take; cbn [String.length]; lia).
           rewrite str_length_take by lia. lia.
        -- destruct size as [|size]; [lia|]. simpl. discriminate.
      * destruct size as [|size]; [lia|]. simpl. by right.
Qed.

Lemma json_string_ok (s : string) : json_text_ok (json_string s).
Proof.
  unfold json_string.
  apply json_text_ok_app; [apply json_text_ok_ascii, json_ascii_okb_sound; reflexivity|].
  apply json_text_ok_app; [apply json_escape_fuel_ok; lia|].
  apply json_text_ok_ascii, json_ascii_okb_sound. reflexivity.
Qed.

(* ================================================================= *)
(** ** Records, rows and report of one run *)

Lemma prod_entry_nil_iff (dev : gmap string CronJob) (n : string) (pj dj : CronJob) :
  dev !! n = Some dj ->
  (prod_entry dev n pj = [] <->
   normalizeCommand (Command pj) = normalizeCommand (Command dj) /\ Schedule pj = Schedule dj).
Proof.
  intros Hd. unfold prod_entry. rewrite Hd.
  destruct (String.eqb_spec (normalizeCommand (Command pj)) (normalizeCommand (Command dj)));
  destruct (String.eqb_spec (Schedule pj) (Schedule dj)); simpl; intuition congruence.
Qed.

Lemma compare_text_names (A B : list CronJob) (itP itD : list (string * CronJob)) (n : string) :
  In n (map fst (text_rows A B itP itD)) <->
  exists r, In r (compareCommands A B itP itD) /\ CronName r = n.
Proof.
  unfold compareCommands, text_rows. cbv zeta.
  rewrite map_app, in_app_iff, text_prod_loop_names, text_dev_loop_names. split.
  - intros [(r & Hr & Hn)|(r & Hr & Hn)]; exists r; split; try done; apply in_or_app; auto.
  - intros (r & Hr & Hn). apply in_app_or in Hr as [Hr|Hr]; [left|right]; by exists r.
Qed.

Lemma text_rows_nodup (A B : list CronJob) (itP itD : list (string * CronJob)) :
  range_order (createCronJobMap A) itP -> range_order (createCronJobMap B) itD ->
  NoDup (map fst (text_rows A B itP itD)).
Proof.
  intros HP HD. unfold text_rows. cbv zeta. rewrite map_app. apply NoDup_app. split; [|split].
  - eapply sublist_NoDup; [exact (range_order_NoDup _ _ HP) | apply text_prod_loop_sublist].
  - intros x Hx1 Hx2. rewrite list_elem_of_In in Hx1, Hx2.
    apply text_prod_loop_names in Hx1 as (r1 & Hr1 & <-).
    apply text_dev_loop_names in Hx2 as (r2 & Hr2 & Hn).
    destruct (prod_loop_key _ _ _ Hr1) as [pj Hpj].
    apply (range_order_In _ _ _ _ HP) in Hpj.
    apply dev_loop_lookup in Hr2. congruence.
  - eapply sublist_NoDup; [exact (range_order_NoDup _ _ HD) | apply text_dev_loop_sublist].
Qed.

Lemma compare_perm_names (l1 l2 : list JobDifference) (n : string) :
  l1 ≡ₚ l2 ->
  (exists r, In r l1 /\ CronName r = n) <-> (exists r, In r l2 /\ CronName r = n).
Proof.
  intros Hp. split; intros (r & Hr & Hn); exists r; split; try done.
  - exact (Permutation_in _ Hp Hr).
  - exact (Permutation_in _ (Permutation_sym Hp) Hr).
Qed.

Lemma length_runes_spaces (k : nat) : length (runes (spaces k)) = k.
Proof.
  induction k as [|k IH]; [done|]. simpl spaces.
  rewrite runes_ascii_cons by (rewrite byte_val_space; lia). simpl. by rewrite IH.
Qed.

Lemma boundary_spaces (k : nat) : boundary (spaces k).
Proof. destruct k; simpl; [done|]. left. rewrite byte_val_space. lia. Qed.

Lemma utf8_ok_lit (u : string) : forallb (fun b => b <? 128) (bytes_of u) = true -> utf8_ok u.
Proof. intros H. by apply utf8_ok_ascii, ascii_bytes_sound. Qed.

Ltac utf8_lit := apply utf8_ok_lit; reflexivity.

Lemma json_member_ok (kv : string * string) : utf8_ok (json_member kv).
Proof.
  unfold json_member. apply utf8_ok_app; [utf8_lit|].
  apply utf8_ok_app; [apply utf8_ok_text, json_string_ok|].
  apply utf8_ok_app; [utf8_lit | apply utf8_ok_text, json_string_ok].
Qed.

Lemma json_object_ok (d : JobDifference) : utf8_ok (json_object d).
Proof.
  unfold json_object. apply utf8_ok_app; [utf8_lit|]. apply utf8_ok_app; [utf8_lit|].
  apply utf8_ok_app.
  - apply utf8_ok_concat; [utf8_lit|]. apply List.Forall_forall. intros x Hx.
    apply in_map_iff in Hx as [kv [<- _]]. apply json_member_ok.
  - apply utf8_ok_app; utf8_lit.
Qed.

Lemma json_report_ok (differences : list JobDifference) : utf8_ok (json_report differences).
Proof.
  unfold json_report, MarshalIndent_differences. apply utf8_ok_app; [|utf8_lit].
  destruct differences as [|d l]; [utf8_lit|].
  apply utf8_ok_app; [utf8_lit|]. apply utf8_ok_app; [utf8_lit|]. apply utf8_ok_app.
  - apply utf8_ok_concat; [utf8_lit|]. apply List.Forall_forall. intros x Hx.
    apply in_map_iff in Hx as [d' [<- _]]. apply utf8_ok_app; [utf8_lit | apply json_object_ok].
  - apply utf8_ok_app; utf8_lit.
Qed.

(** The runes [json_escape] copies unchanged: a byte of [htmlSafeSet], or
    a valid rune of two bytes or more other than U+2028 and U+2029. *)
Definition json_plain_rune (x : Z * string) : Prop :=
  (String.length x.2 = 1%nat /\ htmlSafeSet x.1 = true) \/
  ((2 <= String.length x.2)%nat /\ x.1 <> 8232 /\ x.1 <> 8233).

Lemma json_escape_fuel_plain (fuel : nat) (s : string) :
  (String.length s <= fuel)%nat -> Forall json_plain_rune (runes s) ->
  json_escape_fuel fuel s = s.
Proof.
  revert s. induction fuel as [|f IH]; intros s Hs Hp.
  - destruct s; [done | simpl in Hs; lia].
  - destruct s as [|c rest]; [done|]. cbn [json_escape_fuel].
    destruct (Z.ltb_spec (byte_val c) 128) as [Hc|Hc].
    + rewrite runes_ascii_cons in Hp by done.
      inversion Hp as [|? ? Hx Hrest]; subst.
      destruct Hx as [[_ Hh]|[Hl _]]; [|simpl in Hl; lia]. simpl in Hh. rewrite Hh.
      simpl. rewrite IH; [done | simpl in Hs; lia | done].
    + destruct (DecodeRuneInString (String c rest)) as [r size] eqn:Hd.
      pose proof (decode_width (String c rest) ltac:(done)) as Hw.
      rewrite Hd in Hw. simpl in Hw.
      rewrite (runes_cons _ r size) in Hp by done.
      inversion Hp as [|? ? Hx Hrest]; subst.
      assert (Hl : String.length (str_take size (String c rest)) = size)
        by (apply str_length_take; cbn [String.length]; lia).
      unfold json_plain_rune in Hx. simpl fst in Hx. simpl snd in Hx. rewrite Hl in Hx.
      destruct Hx as [[-> Hh]|[H2 [H1 H3]]].
      * apply decode_width_one in Hd; [|done]. subst r. vm_compute in Hh. discriminate.
      * rewrite (proj2 (Nat.eqb_neq size 1)) by lia. rewrite andb_false_r.
        rewrite (proj2 (Z.eqb_neq r 8232)), (proj2 (Z.eqb_neq r 8233)) by done. simpl orb.
        rewrite IH; [apply str_take_drop | |done].
        rewrite str_length_drop. simpl in *. lia.
Qed.

(* ================================================================= *)
(** * Claims *)

Ltac sorted_run :=
  unfold compare_run, range_order;
  eexists _, _; split; [reflexivity | split; [reflexivity | reflexivity]].

(** C6: command normalisation is idempotent: for every string [s],
    [normalizeCommand (normalizeCommand s) = normalizeCommand s]. *)
Theorem normalizeCommand_idempotent (s : string) :
  normalizeCommand (normalizeCommand s) = normalizeCommand s.
Proof.
  unfold normalizeCommand. rewrite Fields_concat; [done|]. apply Fields_good.
Qed.

(** C7: [normalizeCommand] splits its input at every run of white-space
    runes ([unicode.IsSpace]), drops the runs at both ends and joins the
    fields with a single space: [Fields] is the one split of the runes of
    the input into white-space runs and non-empty runs of non-space runes,
    and the result is the fields joined by " ". In particular
    "a   b\tc" and "a b c" both normalise to "a b c". *)
Theorem normalizeCommand_whitespace_runs (command : string) :
  split_on_space (runes command) (Fields command) /\
  (forall ts, split_on_space (runes command) ts -> Fields command = ts) /\
  normalizeCommand command = String.concat " " (Fields command) /\
  normalizeCommand (str_of_bytes [97; 32; 32; 32; 98; 9; 99]) = normalizeCommand "a b c" /\
  normalizeCommand "a b c" = "a b c".
Proof.
  split; [apply Fields_split|]. split.
  - intros ts Hts. exact (split_on_space_unique _ _ _ (Fields_split command) Hts).
  - split; [reflexivity|]. split; vm_compute; reflexivity.
Qed.

(** C9: the name index is last-write-wins: [createCronJobMap jobs] maps a
    name to the last job of [jobs] bearing it (and has no entry for a name
    no job bears); a job that is followed by no other job of its name is
    the one the index keeps. *)
Theorem createCronJobMap_last_write_wins (jobs : list CronJob) (n : string) :
  createCronJobMap jobs !! n = last (List.filter (fun j => String.eqb (Name j) n) jobs) /\
  (forall j, createCronJobMap jobs !! n = Some j -> Name j = n /\ In j jobs) /\
  (forall pre j post, jobs = pre ++ j :: post -> Name j = n ->
     (forall k, In k post -> Name k <> n) -> createCronJobMap jobs !! n = Some j).
Proof.
  split; [apply createCronJobMap_last|]. split; [apply createCronJobMap_Some|].
  intros pre j post -> Hj Hpost. rewrite createCronJobMap_last, list_filter_app.
  simpl. rewrite (proj2 (String.eqb_eq (Name j) n) Hj).
  rewrite (list_filter_nil _ post).
  - apply last_snoc.
  - intros k Hk. apply String.eqb_neq. by apply Hpost.
Qed.

(** C3: for a name present in both name indexes, a run of
    [compareCommands] records a "Command Difference" for it, carrying both
    original commands, exactly when the whitespace-normalised commands
    differ, and a "Schedule Difference", carrying both schedules, exactly
    when the schedule strings differ (compared as they are, without
    normalisation); no other record of these kinds exists for the name. *)
Theorem compare_command_schedule_diffs (A B : list CronJob) (out : list JobDifference)
    (n : string) (pj dj : CronJob) :
  compare_run A B out ->
  createCronJobMap A !! n = Some pj -> createCronJobMap B !! n = Some dj ->
  (In (mkJobDifference n TypeCommandDifference (Command pj) (Command dj)) out <->
     normalizeCommand (Command pj) <> normalizeCommand (Command dj)) /\
  (forall r, In r out -> CronName r = n -> Type_ r = TypeCommandDifference ->
     r = mkJobDifference n TypeCommandDifference (Command pj) (Command dj)) /\
  (In (mkJobDifference n TypeScheduleDifference (Schedule pj) (Schedule dj)) out <->
     Schedule pj <> Schedule dj) /\
  (forall r, In r out -> CronName r = n -> Type_ r = TypeScheduleDifference ->
     r = mkJobDifference n TypeScheduleDifference (Schedule pj) (Schedule dj)).
Proof.
  intros Hrun Hp Hd.
  assert (Hentry : forall r, In r out -> CronName r = n ->
            Type_ r = TypeCommandDifference \/ Type_ r = TypeScheduleDifference ->
            In r (prod_entry (createCronJobMap B) n pj)).
  { intros r Hin Hn Ht. subst n.
    destruct (compare_run_In _ _ _ Hrun r Hin) as [[pj' [Hp' Hr]]|[Hr _]].
    - rewrite Hp in Hp'. injection Hp' as <-. done.
    - rewrite Hr in Ht. simpl in Ht. destruct Ht; types_differ. }
  split; [split|split; [|split; [split|]]].
  - intros Hin. apply Hentry in Hin; [|done|by left].
    apply prod_entry_In in Hin as [[dj' [Hd' Hcase]]|[Hn Heq]]; [|congruence].
    rewrite Hd in Hd'. injection Hd' as <-.
    destruct Hcase as [[Heq Hne]|[Heq Hne]]; [done|]. injection Heq. intros. types_differ.
  - intros Hne. apply (compare_run_In_prod _ _ _ Hrun n pj); [done|].
    by apply prod_entry_command.
  - intros r Hin Hn Ht. apply Hentry in Hin; [|done|by left].
    apply prod_entry_In in Hin as [[dj' [Hd' Hcase]]|[Hn' Heq]]; [|congruence].
    rewrite Hd in Hd'. injection Hd' as <-.
    destruct Hcase as [[Heq Hne]|[Heq Hne]]; [done|]. subst r. simpl in Ht. types_differ.
  - intros Hin. apply Hentry in Hin; [|done|by right].
    apply prod_entry_In in Hin as [[dj' [Hd' Hcase]]|[Hn Heq]]; [|congruence].
    rewrite Hd in Hd'. injection Hd' as <-.
    destruct Hcase as [[Heq Hne]|[Heq Hne]]; [|done]. injection Heq. intros. types_differ.
  - intros Hne. apply (compare_run_In_prod _ _ _ Hrun n pj); [done|].
    by apply prod_entry_schedule.
  - intros r Hin Hn Ht. apply Hentry in Hin; [|done|by right].
    apply prod_entry_In in Hin as [[dj' [Hd' Hcase]]|[Hn' Heq]]; [|congruence].
    rewrite Hd in Hd'. injection Hd' as <-.
    destruct Hcase as [[Heq Hne]|[Heq Hne]]; [|done]. subst r. simpl in Ht. types_differ.
Qed.

Lemma compare_command_schedule_diffs_witness :
  compare_run [job "j" "x" "1 * * * *"] [job "j" "y" "2 * * * *"]
    (compare_sorted [job "j" "x" "1 * * * *"] [job "j" "y" "2 * * * *"]) /\
  createCronJobMap [job "j" "x" "1 * * * *"] !! "j" = Some (job "j" "x" "1 * * * *") /\
  createCronJobMap [job "j" "y" "2 * * * *"] !! "j" = Some (job "j" "y" "2 * * * *") /\
  (In (mkJobDifference "j" TypeCommandDifference "x" "y")
       (compare_sorted [job "j" "x" "1 * * * *"] [job "j" "y" "2 * * * *"]) <->
     normalizeCommand "x" <> normalizeCommand "y").
Proof.
  assert (Hrun : compare_run [job "j" "x" "1 * * * *"] [job "j" "y" "2 * * * *"]
    (compare_sorted [job "j" "x" "1 * * * *"] [job "j" "y" "2 * * * *"])) by sorted_run.
  assert (Hp : createCronJobMap [job "j" "x" "1 * * * *"] !! "j" = Some (job "j" "x" "1 * * * *"))
    by reflexivity.
  assert (Hd : createCronJobMap [job "j" "y" "2 * * * *"] !! "j" = Some (job "j" "y" "2 * * * *"))
    by reflexivity.
  split; [exact Hrun|]. split; [exact Hp|]. split; [exact Hd|].
  exact (proj1 (compare_command_schedule_diffs _ _ _ "j" _ _ Hrun Hp Hd)).
Defined.

(** C4: comparing a collection with itself yields no record: every run
    of [compareCommands A A] returns the empty list. *)
Theorem compare_self_empty (A : list CronJob) (out : list JobDifference) :
  compare_run A A out -> out = [].
Proof.
  intros (itP & itD & HP & HD & ->). unfold compareCommands.
  rewrite prod_loop_flat_map, dev_loop_flat_map, !flat_map_nil; [done| |].
  - intros [n j] Hin. simpl. unfold dev_entry.
    apply (range_order_In _ itD n j HD) in Hin. by rewrite Hin.
  - intros [n j] Hin. simpl. apply prod_entry_same.
    exact (proj1 (range_order_In _ itP n j HP) Hin).
Qed.

Lemma compare_self_empty_witness :
  compare_run crontab_jobs crontab_jobs
    (compareCommands crontab_jobs crontab_jobs
       (rev (map_to_list (createCronJobMap crontab_jobs)))
       (map_to_list (createCronJobMap crontab_jobs))) /\
  compareCommands crontab_jobs crontab_jobs
    (rev (map_to_list (createCronJobMap crontab_jobs)))
    (map_to_list (createCronJobMap crontab_jobs)) = [].
Proof.
  assert (Hrun : compare_run crontab_jobs crontab_jobs
    (compareCommands crontab_jobs crontab_jobs
       (rev (map_to_list (createCronJobMap crontab_jobs)))
       (map_to_list (createCronJobMap crontab_jobs)))).
  { unfold compare_run, range_order. eexists _, _.
    split; [symmetry; apply Permutation_rev | split; reflexivity]. }
  split; [exact Hrun|]. exact (compare_self_empty _ _ Hrun).
Defined.

(** C1, refuted on the spec's example: the code has no command index,
    so the renamed job is reported as missing on both sides. *)
Lemma rename_example_reports_missing :
  ~ (forall out, compare_run rename_A rename_B out ->
       length (List.filter is_missing out) = 0%nat).
Proof.
  intros H.
  assert (Hrun : compare_run rename_A rename_B (compare_sorted rename_A rename_B)) by sorted_run.
  specialize (H _ Hrun). vm_compute in H. discriminate H.
Qed.

(** C1 (as the code does it): there is no command index and no rename
    detection. A name of a job of [A] that no job of [B] bears gets exactly
    one record, "Exists in production but not in development", whatever
    its command; a name only in [B] gets exactly one "Exists in development
    but not in production" record; every record is of one of the four
    kinds of the code. *)
Theorem missing_never_renamed (A B : list CronJob) (out : list JobDifference) (n : string) :
  compare_run A B out ->
  (is_Some (createCronJobMap A !! n) -> createCronJobMap B !! n = None ->
     List.filter (fun r => String.eqb (CronName r) n) out
     = [mkJobDifference n TypeOnlyProduction "" ""]) /\
  (createCronJobMap A !! n = None -> is_Some (createCronJobMap B !! n) ->
     List.filter (fun r => String.eqb (CronName r) n) out
     = [mkJobDifference n TypeOnlyDevelopment "" ""]) /\
  (forall r, In r out ->
     Type_ r = TypeCommandDifference \/ Type_ r = TypeScheduleDifference \/
     Type_ r = TypeOnlyProduction \/ Type_ r = TypeOnlyDevelopment).
Proof.
  intros Hrun. split; [by apply compare_run_only_prod|].
  split; [by apply compare_run_only_dev|].
  intros r Hin. destruct (compare_run_In _ _ _ Hrun r Hin) as [[pj [_ Hr]]|[Hr _]].
  - apply prod_entry_In in Hr as [[dj [_ [[-> _]|[-> _]]]]|[_ ->]]; simpl; tauto.
  - rewrite Hr. simpl. tauto.
Qed.

Lemma missing_never_renamed_witness :
  compare_run rename_A rename_B (compare_sorted rename_A rename_B) /\
  List.filter (fun r => String.eqb (CronName r) "job1") (compare_sorted rename_A rename_B)
  = [mkJobDifference "job1" TypeOnlyProduction "" ""].
Proof.
  assert (Hrun : compare_run rename_A rename_B (compare_sorted rename_A rename_B)) by sorted_run.
  split; [exact Hrun|].
  apply (proj1 (missing_never_renamed _ _ _ "job1" Hrun)).
  - vm_compute. eexists. reflexivity.
  - vm_compute. reflexivity.
Defined.

(** C2, refuted: Go visits a map in an unspecified order, so two runs on
    the same collections can return the records in different orders. *)
Lemma compare_runs_order_differs :
  ~ (forall A B out1 out2, compare_run A B out1 -> compare_run A B out2 -> out1 = out2).
Proof.
  intros H.
  assert (H1 : compare_run two_jobs [] (compareCommands two_jobs []
                 (map_to_list (createCronJobMap two_jobs)) [])).
  { exists (map_to_list (createCronJobMap two_jobs)), []. unfold range_order.
    split; [done|split; [by vm_compute|done]]. }
  assert (H2 : compare_run two_jobs [] (compareCommands two_jobs []
                 (reverse (map_to_list (createCronJobMap two_jobs))) [])).
  { exists (reverse (map_to_list (createCronJobMap two_jobs))), []. unfold range_order.
    split; [apply reverse_Permutation|split; [by vm_compute|done]]. }
  specialize (H _ _ _ _ H1 H2). vm_compute in H. discriminate H.
Qed.

(** C2 (as the code does it): all runs of [compareCommands] on the same
    collections return the same records, possibly in different orders:
    any two outputs are permutations of each other. *)
Theorem compare_runs_permutation (A B : list CronJob) (out1 out2 : list JobDifference) :
  compare_run A B out1 -> compare_run A B out2 -> out1 ≡ₚ out2.
Proof.
  intros (itP1 & itD1 & HP1 & HD1 & ->) (itP2 & itD2 & HP2 & HD2 & ->).
  unfold compareCommands. rewrite !prod_loop_flat_map, !dev_loop_flat_map.
  apply Permutation_app; apply flat_map_perm; eapply range_order_perm; eauto.
Qed.

Lemma compare_runs_permutation_witness :
  compareCommands two_jobs [] (map_to_list (createCronJobMap two_jobs)) []
  ≡ₚ compareCommands two_jobs [] (reverse (map_to_list (createCronJobMap two_jobs))) [].
Proof.
  apply (compare_runs_permutation two_jobs []).
  - exists (map_to_list (createCronJobMap two_jobs)), []. unfold range_order.
    split; [reflexivity|split; [vm_compute; reflexivity|reflexivity]].
  - exists (reverse (map_to_list (createCronJobMap two_jobs))), []. unfold range_order.
    split; [apply reverse_Permutation|split; [vm_compute; reflexivity|reflexivity]].
Defined.

(** C5: a missing job is reported in both directions: if a job [x] of [A]
    has a name that no job of [B] bears, every run of [compareCommands A B]
    has exactly one missing-job record for that name, and so has every run
    of [compareCommands B A]. *)
Theorem missing_in_both_directions (A B : list CronJob) (x : CronJob)
    (outAB outBA : list JobDifference) :
  In x A -> (forall y, In y B -> Name y <> Name x) ->
  compare_run A B outAB -> compare_run B A outBA ->
  length (List.filter (fun r => String.eqb (CronName r) (Name x) && is_missing r) outAB) = 1%nat /\
  length (List.filter (fun r => String.eqb (CronName r) (Name x) && is_missing r) outBA) = 1%nat.
Proof.
  intros HxA HB HAB HBA.
  pose proof (createCronJobMap_In A x HxA) as HA.
  pose proof (createCronJobMap_None B (Name x) HB) as HBn.
  rewrite !list_filter_andb.
  rewrite (compare_run_only_prod _ _ _ HAB) by done.
  rewrite (compare_run_only_dev _ _ _ HBA) by done.
  split; reflexivity.
Qed.

Lemma missing_in_both_directions_witness :
  length (List.filter (fun r => String.eqb (CronName r) "backup" && is_missing r)
    (compare_sorted [job "backup" "/bin/backup.sh" "0 2 * * *"] rename_B)) = 1%nat /\
  length (List.filter (fun r => String.eqb (CronName r) "backup" && is_missing r)
    (compare_sorted rename_B [job "backup" "/bin/backup.sh" "0 2 * * *"])) = 1%nat.
Proof.
  apply (missing_in_both_directions [job "backup" "/bin/backup.sh" "0 2 * * *"] rename_B
           (job "backup" "/bin/backup.sh" "0 2 * * *")).
  - simpl. by left.
  - intros y [<-|[]]. simpl. discriminate.
  - sorted_run.
  - sorted_run.
Defined.

(** C8, refuted: the Production and Development fields are tagged
    [omitempty], so a schedule difference whose production schedule is the
    empty string is written without a "production" value. *)
Lemma diff_record_value_omitted :
  ~ (forall A B out r, compare_run A B out -> In r out ->
       (Type_ r = TypeCommandDifference \/ Type_ r = TypeScheduleDifference) ->
       json_has "production" r = true /\ json_has "development" r = true).
Proof.
  intros H.
  assert (Hrun : compare_run [job "j" "x" ""] [job "j" "x" "* * * * *"]
                   (compare_sorted [job "j" "x" ""] [job "j" "x" "* * * * *"])) by sorted_run.
  destruct (H _ _ _ (mkJobDifference "j" TypeScheduleDifference "" "* * * * *") Hrun)
    as [Hprod _].
  - vm_compute. left. reflexivity.
  - right. reflexivity.
  - vm_compute in Hprod. discriminate Hprod.
Qed.

(** C8 (as the code does it): a command or schedule difference record for
    name [n] carries the production and development jobs' commands
    (schedules) in its Production and Development fields; the two values
    differ, so its JSON object has at least one of "production" and
    "development" (a side whose value is the empty string is omitted).
    A missing-job record carries no value: its JSON object has only
    "cron_name" and "type". *)
Theorem diff_record_shape (A B : list CronJob) (out : list JobDifference) (r : JobDifference) :
  compare_run A B out -> In r out ->
  (Type_ r = TypeCommandDifference ->
     exists pj dj, createCronJobMap A !! CronName r = Some pj /\
       createCronJobMap B !! CronName r = Some dj /\
       Production r = Command pj /\ Development r = Command dj /\
       (json_has "production" r = true \/ json_has "development" r = true)) /\
  (Type_ r = TypeScheduleDifference ->
     exists pj dj, createCronJobMap A !! CronName r = Some pj /\
       createCronJobMap B !! CronName r = Some dj /\
       Production r = Schedule pj /\ Development r = Schedule dj /\
       (json_has "production" r = true \/ json_has "development" r = true)) /\
  (Type_ r = TypeOnlyProduction \/ Type_ r = TypeOnlyDevelopment ->
     json_fields r = [("cron_name", CronName r); ("type", Type_ r)]).
Proof.
  intros Hrun Hin.
  destruct (compare_run_In _ _ _ Hrun r Hin) as [[pj [Hp Hr]]|[Hr _]].
  - apply prod_entry_In in Hr as [[dj [Hd [[Hr Hne]|[Hr Hne]]]]|[_ Hr]];
      rewrite Hr; cbn [Type_ CronName Production Development].
    + split; [|split].
      * intros _. exists pj, dj. do 4 (split; [done|]).
        apply json_has_one. cbn. intros E. apply Hne. by rewrite E.
      * intros E. types_differ.
      * intros [E|E]; types_differ.
    + split; [|split].
      * intros E. types_differ.
      * intros _. exists pj, dj. do 4 (split; [done|]).
        apply json_has_one. exact Hne.
      * intros [E|E]; types_differ.
    + split; [|split]; [intros E; types_differ|intros E; types_differ|].
      intros _. reflexivity.
  - rewrite Hr. cbn [Type_ CronName Production Development].
    split; [|split]; [intros E; types_differ|intros E; types_differ|].
    intros _. reflexivity.
Qed.

Lemma diff_record_shape_witness :
  json_has "production" (mkJobDifference "j" TypeScheduleDifference "1 * * * *" "2 * * * *") = true \/
  json_has "development" (mkJobDifference "j" TypeScheduleDifference "1 * * * *" "2 * * * *") = true.
Proof.
  assert (Hrun : compare_run [job "j" "x" "1 * * * *"] [job "j" "y" "2 * * * *"]
                   (compare_sorted [job "j" "x" "1 * * * *"] [job "j" "y" "2 * * * *"])) by sorted_run.
  assert (Hin : In (mkJobDifference "j" TypeScheduleDifference "1 * * * *" "2 * * * *")
                  (compare_sorted [job "j" "x" "1 * * * *"] [job "j" "y" "2 * * * *"]))
    by (vm_compute; right; left; reflexivity).
  destruct (proj1 (proj2 (diff_record_shape _ _ _ _ Hrun Hin)) eq_refl)
    as (pj & dj & _ & _ & _ & _ & H).
  exact H.
Defined.

(** C10: for every run and every name [n], the output has at most one
    command difference and at most one schedule difference for [n], even
    when [A] or [B] holds several jobs named [n]; such a record compares the
    last job named [n] of [A] with the last job named [n] of [B]. *)
Theorem at_most_one_diff_per_name (A B : list CronJob) (out : list JobDifference) (n : string) :
  compare_run A B out ->
  (length (List.filter (fun r => String.eqb (CronName r) n &&
                                 String.eqb (Type_ r) TypeCommandDifference) out) <= 1)%nat /\
  (length (List.filter (fun r => String.eqb (CronName r) n &&
                                 String.eqb (Type_ r) TypeScheduleDifference) out) <= 1)%nat /\
  (forall r, In r out -> CronName r = n ->
     Type_ r = TypeCommandDifference \/ Type_ r = TypeScheduleDifference ->
     exists pj dj, last (List.filter (fun j => String.eqb (Name j) n) A) = Some pj /\
       last (List.filter (fun j => String.eqb (Name j) n) B) = Some dj /\
       (r = mkJobDifference n TypeCommandDifference (Command pj) (Command dj) \/
        r = mkJobDifference n TypeScheduleDifference (Schedule pj) (Schedule dj))).
Proof.
  intros Hrun.
  assert (Hcount : forall ty, ty = TypeCommandDifference \/ ty = TypeScheduleDifference ->
    (length (List.filter (fun r => String.eqb (CronName r) n &&
                                   String.eqb (Type_ r) ty) out) <= 1)%nat).
  { intros ty Hty. rewrite list_filter_andb.
    destruct (createCronJobMap A !! n) as [pj|] eqn:Hp;
      destruct (createCronJobMap B !! n) as [dj|] eqn:Hd.
    - rewrite (compare_run_both _ _ _ Hrun n pj dj Hp Hd).
      unfold prod_entry. rewrite Hd.
      destruct (negb _), (negb _); destruct Hty as [-> | ->]; vm_compute; lia.
    - rewrite (compare_run_only_prod _ _ _ Hrun n) by done.
      destruct Hty as [-> | ->]; vm_compute; lia.
    - rewrite (compare_run_only_dev _ _ _ Hrun n) by done.
      destruct Hty as [-> | ->]; vm_compute; lia.
    - rewrite (compare_run_none _ _ _ Hrun n) by done. simpl. lia. }
  split; [apply Hcount; by left|]. split; [apply Hcount; by right|].
  intros r Hin Hn Hty.
  destruct (compare_run_In _ _ _ Hrun r Hin) as [[pj [Hp Hr]]|[Hr _]].
  - rewrite Hn in Hp, Hr. apply prod_entry_In in Hr as [[dj [Hd Hcase]]|[_ Hr]].
    + exists pj, dj. rewrite <- !createCronJobMap_last. split; [done|split; [done|]].
      destruct Hcase as [[-> _]|[-> _]]; auto.
    + rewrite Hr in Hty. cbn [Type_] in Hty. destruct Hty as [E|E]; types_differ.
  - rewrite Hr in Hty. cbn [Type_] in Hty. destruct Hty as [E|E]; types_differ.
Qed.

Lemma at_most_one_diff_per_name_witness :
  (length (List.filter (fun r => String.eqb (CronName r) "j" &&
                                 String.eqb (Type_ r) TypeCommandDifference)
    (compare_sorted [job "j" "a" "1"; job "j" "b" "2"] [job "j" "c" "3"; job "j" "d" "4"])) <= 1)%nat.
Proof.
  apply (at_most_one_diff_per_name [job "j" "a" "1"; job "j" "b" "2"]
           [job "j" "c" "3"; job "j" "d" "4"]).
  sorted_run.
Defined.

(* ================================================================= *)
(** * Further properties of the code *)

Ltac text_sorted_run :=
  unfold text_run, range_order;
  eexists _, _; split; [reflexivity | split; [reflexivity | reflexivity]].

Lemma text_compare_names (A B : list CronJob) (rows : list (string * string))
    (out : list JobDifference) (n : string) :
  text_run A B rows -> compare_run A B out ->
  (In n (map fst rows) <-> exists r, In r out /\ CronName r = n).
Proof.
  intros (itP & itD & HP & HD & ->) (itP' & itD' & HP' & HD' & ->).
  rewrite compare_text_names. apply compare_perm_names. by apply compare_orders_perm.
Qed.

(** normalizeCommand: the result is empty exactly when the command holds
    only whitespace runes (or nothing). *)
Theorem normalizeCommand_blank (command : string) :
  normalizeCommand command = "" <-> Forall space_rune (runes command).
Proof.
  unfold normalizeCommand. split.
  - intros H. apply Fields_nil_iff. apply concat_good_nil; [apply Fields_good | exact H].
  - intros H. apply Fields_nil_iff in H. by rewrite H.
Qed.

(** normalizeCommand: dropping the whitespace runes from the command and
    from its normal form leaves the same bytes; only whitespace is changed. *)
Theorem normalizeCommand_keeps_nonspace (command : string) :
  chunks_bytes (List.filter (fun x => negb (IsSpace x.1)) (runes (normalizeCommand command)))
  = chunks_bytes (List.filter (fun x => negb (IsSpace x.1)) (runes command)).
Proof.
  rewrite (split_on_space_nonspace _ _ (Fields_split (normalizeCommand command))).
  rewrite (split_on_space_nonspace _ _ (Fields_split command)).
  unfold normalizeCommand at 1. by rewrite Fields_concat by apply Fields_good.
Qed.

(** compareCommands: the records reported for a name depend only on the
    job of that name on each side, whatever the other jobs and the orders. *)
Theorem compare_records_local (A B A' B' : list CronJob) (out out' : list JobDifference)
    (n : string) :
  compare_run A B out -> compare_run A' B' out' ->
  createCronJobMap A !! n = createCronJobMap A' !! n ->
  createCronJobMap B !! n = createCronJobMap B' !! n ->
  List.filter (fun r => String.eqb (CronName r) n) out
  = List.filter (fun r => String.eqb (CronName r) n) out'.
Proof.
  intros H1 H2 Ea Eb.
  destruct (createCronJobMap A !! n) as [pj|] eqn:Hp;
    destruct (createCronJobMap B !! n) as [dj|] eqn:Hd.
  - rewrite (compare_run_both _ _ _ H1 n pj dj Hp Hd).
    rewrite (compare_run_both _ _ _ H2 n pj dj (eq_sym Ea) (eq_sym Eb)).
    apply prod_entry_lookup. congruence.
  - rewrite (compare_run_only_prod _ _ _ H1 n (mk_is_Some _ _ Hp) Hd).
    by rewrite (compare_run_only_prod _ _ _ H2 n (mk_is_Some _ _ (eq_sym Ea)) (eq_sym Eb)).
  - rewrite (compare_run_only_dev _ _ _ H1 n Hp (mk_is_Some _ _ Hd)).
    by rewrite (compare_run_only_dev _ _ _ H2 n (eq_sym Ea) (mk_is_Some _ _ (eq_sym Eb))).
  - rewrite (compare_run_none _ _ _ H1 n Hp Hd).
    by rewrite (compare_run_none _ _ _ H2 n (eq_sym Ea) (eq_sym Eb)).
Qed.

Lemma compare_records_local_witness :
  List.filter (fun r => String.eqb (CronName r) "a")
    (compare_sorted [job "a" "/bin/a  -v" "1 * * * *"; job "b" "/bin/b" "2 * * * *"]
                    [job "a" "/bin/x" "1 * * * *"])
  = List.filter (fun r => String.eqb (CronName r) "a")
    (compare_sorted [job "a" "/bin/a  -v" "1 * * * *"]
                    [job "c" "/bin/c" "3 * * * *"; job "a" "/bin/x" "1 * * * *"]).
Proof.
  apply (compare_records_local
           [job "a" "/bin/a  -v" "1 * * * *"; job "b" "/bin/b" "2 * * * *"]
           [job "a" "/bin/x" "1 * * * *"]
           [job "a" "/bin/a  -v" "1 * * * *"]
           [job "c" "/bin/c" "3 * * * *"; job "a" "/bin/x" "1 * * * *"]);
    [sorted_run | sorted_run | vm_compute; reflexivity | vm_compute; reflexivity].
Defined.

(** compareCommands: comparing in the other direction reports the same
    records with production and development exchanged (the two one-sided
    types swapped), up to order. *)
Theorem compare_swap_mirror (A B : list CronJob) (out1 out2 : list JobDifference) :
  compare_run A B out1 -> compare_run B A out2 -> out2 ≡ₚ map mirror out1.
Proof.
  intros H1 H2. apply perm_by_name. intros n. rewrite filter_name_mirror.
  destruct (createCronJobMap A !! n) as [pj|] eqn:Hp;
    destruct (createCronJobMap B !! n) as [dj|] eqn:Hd.
  - rewrite (compare_run_both _ _ _ H2 n dj pj Hd Hp), (compare_run_both _ _ _ H1 n pj dj Hp Hd).
    by apply prod_entry_swap.
  - rewrite (compare_run_only_dev _ _ _ H2 n Hd (mk_is_Some _ _ Hp)).
    rewrite (compare_run_only_prod _ _ _ H1 n (mk_is_Some _ _ Hp) Hd). reflexivity.
  - rewrite (compare_run_only_prod _ _ _ H2 n (mk_is_Some _ _ Hd) Hp).
    rewrite (compare_run_only_dev _ _ _ H1 n Hp (mk_is_Some _ _ Hd)). reflexivity.
  - by rewrite (compare_run_none _ _ _ H2 n Hd Hp), (compare_run_none _ _ _ H1 n Hp Hd).
Qed.

Lemma compare_swap_mirror_witness :
  compare_sorted [job "b" "/bin/b" "* * * * *"; job "a" "/bin/a" "0 1 * * *"]
                 [job "a" "/bin/a2" "0 2 * * *"; job "c" "/bin/c" "* * * * *"]
  ≡ₚ map mirror
      (compare_sorted [job "a" "/bin/a2" "0 2 * * *"; job "c" "/bin/c" "* * * * *"]
                      [job "b" "/bin/b" "* * * * *"; job "a" "/bin/a" "0 1 * * *"]).
Proof.
  apply (compare_swap_mirror [job "a" "/bin/a2" "0 2 * * *"; job "c" "/bin/c" "* * * * *"]
                             [job "b" "/bin/b" "* * * * *"; job "a" "/bin/a" "0 1 * * *"]);
    sorted_run.
Defined.

(** compareCommands: no record at all exactly when both sides have the
    same names and every shared name has equal normalised commands and
    equal schedules. *)
Theorem compare_empty_iff (A B : list CronJob) (out : list JobDifference) :
  compare_run A B out ->
  (out = [] <->
   forall n, (is_Some (createCronJobMap A !! n) <-> is_Some (createCronJobMap B !! n)) /\
     forall pj dj, createCronJobMap A !! n = Some pj -> createCronJobMap B !! n = Some dj ->
       normalizeCommand (Command pj) = normalizeCommand (Command dj) /\
       Schedule pj = Schedule dj).
Proof.
  intros Hrun. split.
  - intros Hout n. subst out.
    destruct (createCronJobMap A !! n) as [pj|] eqn:Hp;
      destruct (createCronJobMap B !! n) as [dj|] eqn:Hd.
    + split; [split; intros _; by eexists|]. intros pj' dj' [= <-] [= <-].
      pose proof (compare_run_both _ _ _ Hrun n pj dj Hp Hd) as H. simpl in H.
      apply (prod_entry_nil_iff _ _ _ _ Hd). by rewrite <- H.
    + pose proof (compare_run_only_prod _ _ _ Hrun n (mk_is_Some _ _ Hp) Hd) as H.
      simpl in H. discriminate.
    + pose proof (compare_run_only_dev _ _ _ Hrun n Hp (mk_is_Some _ _ Hd)) as H.
      simpl in H. discriminate.
    + split; [split; intros [? ?]; discriminate|]. intros pj dj; discriminate.
  - intros H. destruct out as [|r out]; [done|]. exfalso.
    destruct (compare_run_In _ _ _ Hrun r (in_eq _ _)) as [[pj [Hp Hr]]|[_ [Hp HB]]].
    + destruct (H (CronName r)) as [Hiff Heq].
      destruct (proj1 Hiff (mk_is_Some _ _ Hp)) as [dj Hd].
      rewrite (proj2 (prod_entry_nil_iff _ _ _ _ Hd) (Heq pj dj Hp Hd)) in Hr. done.
    + destruct (H (CronName r)) as [Hiff _]. apply Hiff in HB.
      rewrite Hp in HB. by destruct HB.
Qed.

Lemma compare_empty_iff_witness :
  compare_sorted [job "a" "/bin/a  -x" "0 1 * * *"; job "b" "/bin/b" "* * * * *"]
                 [job "b" " /bin/b" "* * * * *"; job "a" "/bin/a -x" "0 1 * * *"] = [] <->
  forall n,
    (is_Some (createCronJobMap [job "a" "/bin/a  -x" "0 1 * * *"; job "b" "/bin/b" "* * * * *"] !! n)
     <-> is_Some (createCronJobMap [job "b" " /bin/b" "* * * * *"; job "a" "/bin/a -x" "0 1 * * *"] !! n)) /\
    forall pj dj,
      createCronJobMap [job "a" "/bin/a  -x" "0 1 * * *"; job "b" "/bin/b" "* * * * *"] !! n = Some pj ->
      createCronJobMap [job "b" " /bin/b" "* * * * *"; job "a" "/bin/a -x" "0 1 * * *"] !! n = Some dj ->
      normalizeCommand (Command pj) = normalizeCommand (Command dj) /\ Schedule pj = Schedule dj.
Proof.
  apply (compare_empty_iff [job "a" "/bin/a  -x" "0 1 * * *"; job "b" "/bin/b" "* * * * *"]
                           [job "b" " /bin/b" "* * * * *"; job "a" "/bin/a -x" "0 1 * * *"]).
  sorted_run.
Defined.

(** The JSON branch prints valid UTF-8 for any jobs, also when a command
    or a name holds bytes that are not UTF-8: no rune of the output
    decodes as an invalid byte. *)
Theorem json_report_valid_utf8 (differences : list JobDifference) :
  Forall (fun x => ~ (x.1 = RuneError /\ String.length x.2 = 1%nat))
    (runes (json_report differences)).
Proof. apply json_report_ok. Qed.

(** Every string value of the JSON output is written as a literal whose
    bytes hold no control byte and none of [&], [<] and [>], and whose runes
    are valid UTF-8 other than U+2028 and U+2029. *)
Theorem json_string_safe (s : string) :
  Forall json_safe_byte (bytes_of (json_string s)) /\
  Forall json_safe_rune (runes (json_string s)).
Proof. destruct (json_string_ok s) as (Hb & Hr & _). by split. Qed.

(** A string made of runes the encoder copies (printable ASCII other than
    the double quote, the backslash, [<], [>] and [&], and valid non-ASCII
    runes other than U+2028 and U+2029) is written unchanged. *)
Theorem json_escape_plain (s : string) :
  Forall json_plain_rune (runes s) -> json_escape s = s.
Proof. intros H. unfold json_escape. by apply json_escape_fuel_plain. Qed.

Lemma json_escape_plain_witness :
  json_escape (str_of_bytes [48; 32; 51; 32; 42; 32; 47; 98; 105; 110; 47; 99; 97; 102; 195; 169])
  = str_of_bytes [48; 32; 51; 32; 42; 32; 47; 98; 105; 110; 47; 99; 97; 102; 195; 169].
Proof.
  apply json_escape_plain. unfold json_plain_rune.
  apply (bool_decide_unpack _). vm_compute. reflexivity.
Defined.

(** The text branch writes one table row per name that has a record in
    the JSON branch, and no other rows. *)
Theorem text_rows_names (A B : list CronJob) (rows : list (string * string))
    (out : list JobDifference) (n : string) :
  text_run A B rows -> compare_run A B out ->
  (In n (map fst rows) <-> exists r, In r out /\ CronName r = n).
Proof. apply text_compare_names. Qed.

Lemma text_rows_names_witness :
  In "b" (map fst (text_rows [job "a" "/bin/a" "1 * * * *"; job "b" "/bin/b" "2 * * * *"]
                             [job "b" "/bin/b2" "2 * * * *"]
                             (map_to_list (createCronJobMap
                                [job "a" "/bin/a" "1 * * * *"; job "b" "/bin/b" "2 * * * *"]))
                             (map_to_list (createCronJobMap [job "b" "/bin/b2" "2 * * * *"]))))
  <-> exists r, In r (compare_sorted [job "a" "/bin/a" "1 * * * *"; job "b" "/bin/b" "2 * * * *"]
                                     [job "b" "/bin/b2" "2 * * * *"]) /\ CronName r = "b".
Proof.
  apply (text_rows_names [job "a" "/bin/a" "1 * * * *"; job "b" "/bin/b" "2 * * * *"]
                         [job "b" "/bin/b2" "2 * * * *"]); [text_sorted_run | sorted_run].
Defined.

(** The text branch writes at most one row per name: the command and the
    schedule differences of a name share its row. *)
Theorem text_rows_unique (A B : list CronJob) (rows : list (string * string)) :
  text_run A B rows -> NoDup (map fst rows).
Proof. intros (itP & itD & HP & HD & ->). by apply text_rows_nodup. Qed.

Lemma text_rows_unique_witness :
  NoDup (map fst (text_rows [job "a" "/bin/a" "1 * * * *"] [job "a" "/bin/b" "2 * * * *"]
                    (map_to_list (createCronJobMap [job "a" "/bin/a" "1 * * * *"]))
                    (map_to_list (createCronJobMap [job "a" "/bin/b" "2 * * * *"])))).
Proof. apply (text_rows_unique [job "a" "/bin/a" "1 * * * *"] [job "a" "/bin/b" "2 * * * *"]).
  text_sorted_run.
Defined.

(** The text branch writes only the two header rows exactly when the
    JSON branch reports no record. *)
Theorem text_table_header_only (A B : list CronJob) (rows : list (string * string))
    (out : list JobDifference) :
  text_run A B rows -> compare_run A B out ->
  (text_table_input rows
   = String.append (table_row "Cron Name" "Difference") (table_row "---------" "----------")
   <-> out = []).
Proof.
  intros Ht Hc. rewrite text_table_input_header. split.
  - intros ->. destruct out as [|r out]; [done|]. exfalso.
    apply (proj2 (text_compare_names A B [] (r :: out) (CronName r) Ht Hc)).
    exists r. split; [by left | done].
  - intros ->. destruct rows as [|[a b] rows]; [done|]. exfalso.
    destruct (proj1 (text_compare_names A B _ [] a Ht Hc)) as (r & [] & _). by left.
Qed.

Lemma text_table_header_only_witness :
  text_table_input (text_rows [job "a" "/bin/a  x" "1 * * * *"] [job "a" "/bin/a x" "1 * * * *"]
                      (map_to_list (createCronJobMap [job "a" "/bin/a  x" "1 * * * *"]))
                      (map_to_list (createCronJobMap [job "a" "/bin/a x" "1 * * * *"])))
  = String.append (table_row "Cron Name" "Difference") (table_row "---------" "----------")
  <-> compare_sorted [job "a" "/bin/a  x" "1 * * * *"] [job "a" "/bin/a x" "1 * * * *"] = [].
Proof.
  apply (text_table_header_only [job "a" "/bin/a  x" "1 * * * *"] [job "a" "/bin/a x" "1 * * * *"]);
    [text_sorted_run | sorted_run].
Defined.

(** The padding of [%-40s] and [%-70s]: the padded text has as many runes
    as the width, or as the text when it is longer (it is never cut). *)
Theorem pad_right_width (wid : nat) (s : string) :
  RuneCountInString (pad_right wid s) = Nat.max wid (RuneCountInString s).
Proof.
  unfold pad_right, RuneCountInString. rewrite runes_app by apply boundary_spaces.
  rewrite length_app, length_runes_spaces. lia.
Qed.
